(** * Score-import orchestration: [score-import-main.ts]

    A shallow embedding of [ParseImportInfo], [UpdateUsersGameStats] and
    [ScoreImportMain] from
    [server/src/score-import/framework/score-import-main.ts], and the
    properties the specification states about them. *)

From Stdlib Require Import QArith Qcanon.
From stdpp Require Import base decidable option list numbers strings.

Set Default Proof Using "Type".

(** ** JavaScript containers used by the source *)

(** A JavaScript [Set]: distinct values, iterated in insertion order.
    [add] leaves the set alone when the value is already in it. *)
Module JsSet.
Section JsSet.
Context {A : Type} `{EqDecision A}.

Definition t := list A.

Definition empty : t := [].

Definition add (x : A) (s : t) : t :=
  if decide (x ∈ s) then s else s ++ [x].

Definition size (s : t) : nat := length s.
End JsSet.
Arguments t : clear implicits.
End JsSet.

(** A JavaScript object made by [Object.create(null)] and used as a map:
  own properties only, listed by [Object.keys] in insertion order.  (The
  keys here are play-type names such as SP, DP or 7K; none is an array
  index, the only keys [Object.keys] would move to the front.) *)
Module JsObj.
Section JsObj.
Context {K V : Type} `{EqDecision K}.

Definition t := list (K * V).

Definition create_null : t := [].

(** [o[k]]: the property's value, or undefined. *)
Fixpoint get (k : K) (o : t) : option V :=
  match o with
  | [] => None
  | (k', v) :: o' => if decide (k = k') then Some v else get k o'
  end.

(** [o[k] = v]: overwrite in place, or add the property at the end. *)
Fixpoint set (k : K) (v : V) (o : t) : t :=
  match o with
  | [] => [(k, v)]
  | (k', v') :: o' =>
      if decide (k = k') then (k', v) :: o' else (k', v') :: set k v o'
  end.

Definition keys (o : t) : list K := o.*1.
End JsObj.
Arguments t : clear implicits.
End JsObj.

(** ** Data model *)

Section Partition.
(** [Playtypes[Game]] and the part of a score document the framework
    never looks at come from kamaitachi-common. *)
Context {Playtype ScoreData : Type} `{EqDecision Playtype}.

Record ScoreDocument := {
  scoreID : string;
  chartID : string;
  playtype : Playtype;
  scoreData : ScoreData;
}.

(** [ImportProcessingInfo]: discriminated by [success]; a success carries
    [content.score], every entry carries [type] and [message]. *)
Inductive ImportProcessingInfo :=
| Success (score : ScoreDocument)
| Failure (type message : string).

Record ImportError := { err_type : string; err_message : string }.

Definition ScorePlaytypeMap := JsObj.t Playtype (list ScoreDocument).

Record ParsedImportInfo := {
  scoreIDs : list string;
  errors : list ImportError;
  scorePlaytypeMap : ScorePlaytypeMap;
  chartIDs : JsSet.t string;
}.

(** ** [ParseImportInfo] *)

(** The body of [for (const info of importInfo)]. *)
Definition ParseImportInfo_step (acc : ParsedImportInfo)
    (info : ImportProcessingInfo) : ParsedImportInfo :=
  match info with
  | Success score =>
      {| scoreIDs := scoreIDs acc ++ [scoreID score];
         errors := errors acc;
         scorePlaytypeMap :=
           match JsObj.get (playtype score) (scorePlaytypeMap acc) with
           | Some arr =>
               JsObj.set (playtype score) (arr ++ [score]) (scorePlaytypeMap acc)
           | None =>
               JsObj.set (playtype score) [score] (scorePlaytypeMap acc)
           end;
         chartIDs := JsSet.add (chartID score) (chartIDs acc) |}
  | Failure type message =>
      {| scoreIDs := scoreIDs acc;
         errors := errors acc ++ [{| err_type := type; err_message := message |}];
         scorePlaytypeMap := scorePlaytypeMap acc;
         chartIDs := chartIDs acc |}
  end.

Definition ParseImportInfo_init : ParsedImportInfo :=
  {| scoreIDs := [];
     errors := [];
     scorePlaytypeMap := JsObj.create_null;
     chartIDs := JsSet.empty |}.

Definition ParseImportInfo (importInfo : list ImportProcessingInfo)
    : ParsedImportInfo :=
  foldl ParseImportInfo_step ParseImportInfo_init importInfo.

(** ** Specification-side vocabulary *)

(** The accepted scores of a batch, in input order. *)
Definition accepted (importInfo : list ImportProcessingInfo)
    : list ScoreDocument :=
  omap (λ info, match info with
                | Success score => Some score
                | Failure _ _ => None
                end) importInfo.

(** The failures of a batch, in input order. *)
Definition failures (importInfo : list ImportProcessingInfo)
    : list ImportError :=
  omap (λ info, match info with
                | Success _ => None
                | Failure type message =>
                    Some {| err_type := type; err_message := message |}
                end) importInfo.

(** The scores stored under a play type ([[]] when the key is absent). *)
Definition group (pt : Playtype) (m : ScorePlaytypeMap) : list ScoreDocument :=
  default [] (JsObj.get pt m).

End Partition.

Arguments ScoreDocument : clear implicits.
Arguments ImportProcessingInfo : clear implicits.
Arguments ScorePlaytypeMap : clear implicits.
Arguments ParsedImportInfo : clear implicits.

(** ** JavaScript numbers

    Every number of the source is an IEEE double.  The timings are only
    ever compared with zero, so a finite double is kept as the exact
    rational it approximates (rounding is monotone and keeps 0), next to
    the three special values.  The divisors of the source are array
    lengths and set sizes, so a zero divisor is +0. *)
Module JsNum.
Inductive t := NaN | PosInf | NegInf | Fin (q : Qc).

Definition of_Z (z : Z) : t := Fin (Qc_of_Z z).
Definition of_nat (n : nat) : t := of_Z (Z.of_nat n).

(** [a / b] *)
Definition div (a b : t) : t :=
  match a, b with
  | NaN, _ | _, NaN => NaN
  | (PosInf | NegInf), (PosInf | NegInf) => NaN
  | PosInf, Fin q => if decide (0 ≤ q)%Qc then PosInf else NegInf
  | NegInf, Fin q => if decide (0 ≤ q)%Qc then NegInf else PosInf
  | Fin _, (PosInf | NegInf) => Fin 0
  | Fin p, Fin q =>
      if decide (q = 0%Qc) then
        if decide (p = 0%Qc) then NaN
        else if decide (0 < p)%Qc then PosInf else NegInf
      else Fin (p / q)
  end.

(** [a <= b]; false as soon as one side is NaN. *)
Definition leb (a b : t) : bool :=
  match a, b with
  | NaN, _ | _, NaN => false
  | NegInf, _ | _, PosInf => true
  | _, NegInf | PosInf, _ => false
  | Fin p, Fin q => bool_decide (p ≤ q)%Qc
  end.

(** [x >= 0] *)
Definition nonneg (x : t) : bool := leb (of_Z 0) x.
End JsNum.

(** ** The orchestrator's world *)

(** The logger's levels used by the source, most severe first. *)
Inductive LogLevel := info | verbose | debug.

(** The template strings passed to the logger, kept as the message they
    are with the values they interpolate. *)
Inductive LogMessage :=
| MsgReceived
| MsgParsing (parseTime : JsNum.t)
| MsgImporting (importTime importTimeRel : JsNum.t)
| MsgImportParsing (importParseTime importParseTimeRel : JsNum.t)
| MsgSession (sessionTime sessionTimeRel : JsNum.t)
| MsgPB (pbTime pbTimeRel : JsNum.t)
| MsgUGS (ugsTime : JsNum.t)
| MsgGoal (goalTime : JsNum.t)
| MsgMilestone (milestoneTime : JsNum.t)
| MsgImportTook (total : Z) (documents fails successes sessions : nat)
    (aprx : JsNum.t).

(** The awaited calls of [ScoreImportMain], in the order of the source. *)
Inductive Stage {Playtype : Type} :=
| StParse
| StImport
| StSessions
| StPBs
| StStats (pt : Playtype)
| StGoals
| StMilestones
| StInsert.
Arguments Stage : clear implicits.

Record TimingsRel := {
  rel_import : JsNum.t;
  rel_importParse : JsNum.t;
  rel_pb : JsNum.t;
  rel_session : JsNum.t;
}.

Record TimingsAbs := {
  abs_parse : JsNum.t;
  abs_import : JsNum.t;
  abs_importParse : JsNum.t;
  abs_session : JsNum.t;
  abs_pb : JsNum.t;
  abs_ugs : JsNum.t;
  abs_goal : JsNum.t;
  abs_milestone : JsNum.t;
}.

(** A document of the [import-timings] collection. *)
Record ImportTimings := {
  it_importID : string;
  it_timestamp : Z;
  it_total : Z;
  it_rel : TimingsRel;
  it_abs : TimingsAbs;
}.

Section Orchestrator.
Context {Playtype ScoreData : Type} `{EqDecision Playtype}.
(** Types of kamaitachi-common and of the collaborators' modules. *)
Context {UserData Game ImportTypes Logger : Type}.
Context {Iterable Converter ConverterContext : Type}.
Context {SessionInfo ClassDelta GoalInfo MilestoneInfo : Type}.
(** What a collaborator can throw, and the state the collaborators work
    on (the database but for the two collections written here, the
    source of randomness, ...). *)
Context {Err Ext : Type}.

Record PublicUserDocument := { id : Z; userData : UserData }.

Record ImportDocument := {
  importType : ImportTypes;
  idStrings : list (Game * Playtype);
  doc_scoreIDs : list string;
  doc_errors : list ImportError;
  importID : string;
  timeFinished : Z;
  timeStarted : Z;
  createdSessions : list SessionInfo;
  userID : Z;
  classDeltas : list ClassDelta;
  goalInfo : GoalInfo;
  milestoneInfo : MilestoneInfo;
  userIntent : bool;
}.

Record World := {
  ext : Ext;
  (** how often [Date.now()] and [process.hrtime.bigint()] were read *)
  date_reads : nat;
  hrtime_reads : nat;
  (** what the import logger was given *)
  logged : list (LogLevel * LogMessage);
  (** the documents handed to [db.imports] and to [db["import-timings"]] *)
  db_imports : list ImportDocument;
  db_import_timings : list ImportTimings;
  (** the awaited calls made so far, each with the error it threw *)
  awaited : list (Stage Playtype * option Err);
}.

(** How a call ends: it returns, or it throws (a rejected promise). *)
Inductive Res (A : Type) :=
| Ok (a : A)
| Throw (e : Err).
Global Arguments Ok {A} a.
Global Arguments Throw {A} e.

(** An [async] body: it reads and changes the world, and returns or throws. *)
Definition M (A : Type) : Type := World → Res A * World.

Definition ret {A} (a : A) : M A := λ w, (Ok a, w).

Definition bind {A B} (c : M A) (k : A → M B) : M B :=
  λ w, match c w with
       | (Ok a, w') => k a w'
       | (Throw e, w') => (Throw e, w')
       end.

(** [wp c Q w]: run from the world [w], the body [c] ends with a result
    and in a world that [Q] relates. *)
Definition wp {A} (c : M A) (Q : Res A → World → Prop) (w : World) : Prop :=
  Q (c w).1 (c w).2.

(** A collaborator: it works on its own state, and returns or throws. *)
Definition Collab (A : Type) : Type := Ext → Res A * Ext.

(** What [InputParser] resolves to. *)
Record ParserOutput := {
  iterable : Iterable;
  ConverterFunction : Converter;
  context : ConverterContext;
  game : Game;
}.

Definition ImportInputParser : Type := Logger → Collab ParserOutput.

(** The modules [ScoreImportMain] imports, the two clocks it reads (the
    [n]-th read of a clock returns its value at [n]), and the scheduler:
    [settles_at st x] is the instant at which the promise of a call of
    stage [st], started in the collaborators' state [x], settles. *)
Record Env := {
  Date_clock : nat → Z;
  hrtime_clock : nat → Z;
  settles_at : Stage Playtype → Ext → nat;
  CreateImportLoggerAndID :
    PublicUserDocument → ImportTypes → Ext → (string * Logger) * Ext;
  ImportAllIterableData :
    Z → Iterable → Converter → ConverterContext → Logger →
    Collab (list (ImportProcessingInfo Playtype ScoreData));
  CreateSessions :
    Z → ImportTypes → Game → ScorePlaytypeMap Playtype ScoreData → Logger →
    Collab (list SessionInfo);
  ProcessPBs : Z → JsSet.t string → Logger → Collab unit;
  UpdateUsersGamePlaytypeStats :
    Game → Playtype → Z → option ClassDelta → Logger →
    Collab (list ClassDelta);
  UpdateUsersGoals : Game → Z → JsSet.t string → Logger → Collab GoalInfo;
  UpdateUsersMilestones :
    GoalInfo → Game → list Playtype → Z → Logger → Collab MilestoneInfo;
  (** the error [db.imports.insert] rejects with, when it does *)
  db_imports_insert_rejects : ImportDocument → Ext → option Err;
}.

Variable env : Env.

(** *** Primitive effects *)

Definition Date_now : M Z := λ w,
  (Ok (Date_clock env (date_reads w)),
   {| ext := ext w; date_reads := S (date_reads w);
      hrtime_reads := hrtime_reads w; logged := logged w;
      db_imports := db_imports w; db_import_timings := db_import_timings w;
      awaited := awaited w |}).

Definition hrtime_bigint : M Z := λ w,
  (Ok (hrtime_clock env (hrtime_reads w)),
   {| ext := ext w; date_reads := date_reads w;
      hrtime_reads := S (hrtime_reads w); logged := logged w;
      db_imports := db_imports w; db_import_timings := db_import_timings w;
      awaited := awaited w |}).

(** Modelled from the spec: [GetMilisecondsSince] is in
    [core/hrtime-core], not among the sources; the spec has each stage's
    duration measured, and the source logs the value as milliseconds:
    the nanoseconds of [process.hrtime.bigint()] elapsed since [start],
    over a million. *)
Definition GetMilisecondsSince (start : Z) : M JsNum.t := λ w,
  match hrtime_bigint w with
  | (Ok now, w') => (Ok (JsNum.div (JsNum.of_Z (now - start)) (JsNum.of_Z 1000000)), w')
  | (Throw e, w') => (Throw e, w')
  end.

(** [logger.info], [logger.verbose], [logger.debug] *)
Definition logger_log (level : LogLevel) (msg : LogMessage) : M unit := λ w,
  (Ok (),
   {| ext := ext w; date_reads := date_reads w;
      hrtime_reads := hrtime_reads w; logged := logged w ++ [(level, msg)];
      db_imports := db_imports w; db_import_timings := db_import_timings w;
      awaited := awaited w |}).

(** Calling a collaborator that does not throw. *)
Definition call {A} (c : Ext → A * Ext) : M A := λ w,
  let '(a, x) := c (ext w) in
  (Ok a,
   {| ext := x; date_reads := date_reads w;
      hrtime_reads := hrtime_reads w; logged := logged w;
      db_imports := db_imports w; db_import_timings := db_import_timings w;
      awaited := awaited w |}).

Definition thrown {A} (r : Res A) : option Err :=
  match r with
  | Ok _ => None
  | Throw e => Some e
  end.

(** Running a collaborator's promise to its settlement. *)
Definition settle {A} (st : Stage Playtype) (c : Collab A)
    : World → Res A * World := λ w,
  let '(r, x) := c (ext w) in
  (r,
   {| ext := x; date_reads := date_reads w;
      hrtime_reads := hrtime_reads w; logged := logged w;
      db_imports := db_imports w; db_import_timings := db_import_timings w;
      awaited := awaited w ++ [(st, thrown r)] |}).

(** [await c]: the value, or the rejection thrown here. *)
Definition await {A} (st : Stage Playtype) (c : Collab A) : M A :=
  settle st c.

(** [await db.imports.insert(doc)] *)
Definition db_imports_insert (doc : ImportDocument) : M unit := λ w,
  match db_imports_insert_rejects env doc (ext w) with
  | Some e =>
      (Throw e,
       {| ext := ext w; date_reads := date_reads w;
          hrtime_reads := hrtime_reads w; logged := logged w;
          db_imports := db_imports w;
          db_import_timings := db_import_timings w;
          awaited := awaited w ++ [(StInsert, Some e)] |})
  | None =>
      (Ok (),
       {| ext := ext w; date_reads := date_reads w;
          hrtime_reads := hrtime_reads w; logged := logged w;
          db_imports := db_imports w ++ [doc];
          db_import_timings := db_import_timings w;
          awaited := awaited w ++ [(StInsert, None)] |})
  end.

(** [db["import-timings"].insert(t)], not awaited: the document is handed
    over and the promise dropped, whatever becomes of it. *)
Definition db_import_timings_insert (t : ImportTimings) : M unit := λ w,
  (Ok (),
   {| ext := ext w; date_reads := date_reads w;
      hrtime_reads := hrtime_reads w; logged := logged w;
      db_imports := db_imports w;
      db_import_timings := db_import_timings w ++ [t];
      awaited := awaited w |}).
#[global] Instance M_ret : MRet M := @ret.
#[global] Instance M_bind : MBind M := λ A B k c, bind c k.

(** *** [Promise.all]

    A call of an [async] function starts its promise.  The effects of the
    promises of an array are taken here in the order the promises were
    started; each promise settles at the instant the scheduler gives it.
    [Promise.all] resolves to the array of the values when every promise
    fulfils, and otherwise rejects with the rejection that settles first,
    wherever its promise stands in the array.  (Two promises do not settle
    at one instant; should the scheduler say so, the earlier of the array
    counts as first.)  The other promises are not cancelled by a
    rejection. *)
Fixpoint settle_all {A} (promises : list (Stage Playtype * Collab A))
    (w : World) : list (Res A * nat) * World :=
  match promises with
  | [] => ([], w)
  | (st, c) :: promises' =>
      let '(r, w1) := settle st c w in
      let '(settled, w2) := settle_all promises' w1 in
      ((r, settles_at env st (ext w)) :: settled, w2)
  end.

(** The rejection that settles first, with its instant. *)
Fixpoint first_rejection {A} (settled : list (Res A * nat))
    : option (Err * nat) :=
  match settled with
  | [] => None
  | (Ok _, _) :: settled' => first_rejection settled'
  | (Throw e, t) :: settled' =>
      match first_rejection settled' with
      | Some (e', t') => if decide (t' < t) then Some (e', t') else Some (e, t)
      | None => Some (e, t)
      end
  end.

(** The values of the promises that fulfilled, in the order of the array. *)
Fixpoint fulfilled {A} (settled : list (Res A * nat)) : list A :=
  match settled with
  | [] => []
  | (Ok a, _) :: settled' => a :: fulfilled settled'
  | (Throw _, _) :: settled' => fulfilled settled'
  end.

Definition Promise_all {A} (settled : list (Res A * nat)) : Res (list A) :=
  match first_rejection settled with
  | Some (e, _) => Throw e
  | None => Ok (fulfilled settled)
  end.

(** Specification side: the calls [cs], started one after the other from
    the collaborators' state [x], end with the results and at the instants
    [settled], and leave the state [x']. *)
Inductive called_in_turn {A} :
  list (Stage Playtype * Collab A) → Ext → list (Res A * nat) → Ext → Prop :=
| called_nil x : called_in_turn [] x [] x
| called_cons st c cs x r x1 settled x2 :
    c x = (r, x1) →
    called_in_turn cs x1 settled x2 →
    called_in_turn ((st, c) :: cs) x ((r, settles_at env st x) :: settled) x2.



(** The entries of a trace that record no error. *)
Definition clean (tr : list (Stage Playtype * option Err)) : Prop :=
  Forall (λ c, c.2 = None) tr.

(** The first error a trace records, with the stage that threw it. *)
Fixpoint first_error (tr : list (Stage Playtype * option Err))
    : option (Stage Playtype * Err) :=
  match tr with
  | [] => None
  | (st, Some e) :: _ => Some (st, e)
  | (_, None) :: tr' => first_error tr'
  end.

(** ** [UpdateUsersGameStats] *)

(** The array [promises] after the [for] loop. *)
Definition UpdateUsersGameStats_promises (game : Game)
    (playtypes : list Playtype) (userID : Z) (logger : Logger)
    : list (Stage Playtype * Collab (list ClassDelta)) :=
  (λ pt, (StStats pt,
          UpdateUsersGamePlaytypeStats env game pt userID None logger))
    <$> playtypes.

Definition UpdateUsersGameStats (game : Game) (playtypes : list Playtype)
    (userID : Z) (logger : Logger) : M (list ClassDelta) := λ w,
  let '(settled, w') :=
    settle_all (UpdateUsersGameStats_promises game playtypes userID logger) w in
  match Promise_all settled with
  | Ok r => (Ok (concat r), w')
  | Throw e => (Throw e, w')
  end.

(** ** [ScoreImportMain] *)

(** The [if] ... [else if] ... [else] that logs the summary line. *)
Definition log_import_summary (scoreIDs : list string)
    (logMessage : LogMessage) : M unit :=
  if decide (500 < length scoreIDs) then logger_log info logMessage
  else if decide (1 < length scoreIDs) then logger_log verbose logMessage
  else logger_log debug logMessage.

Definition ScoreImportMain (user : PublicUserDocument) (userIntent : bool)
    (importType : ImportTypes) (InputParser : ImportInputParser)
    : M ImportDocument :=
  timeStarted ← Date_now;
  '(importID, logger) ← call (CreateImportLoggerAndID env user importType);
  logger_log debug MsgReceived;;
  (* 1. Parsing *)
  parseTimeStart ← hrtime_bigint;
  parsed ← await StParse (InputParser logger);
  parseTime ← GetMilisecondsSince parseTimeStart;
  logger_log debug (MsgParsing parseTime);;
  (* 2. Importing *)
  importTimeStart ← hrtime_bigint;
  importInfo ← await StImport
    (ImportAllIterableData env (id user) (iterable parsed)
       (ConverterFunction parsed) (context parsed) logger);
  importTime ← GetMilisecondsSince importTimeStart;
  let importTimeRel := JsNum.div importTime (JsNum.of_nat (length importInfo)) in
  logger_log debug (MsgImporting importTime importTimeRel);;
  (* 3. ParseImportInfo *)
  importParseTimeStart ← hrtime_bigint;
  let parsedInfo := ParseImportInfo importInfo in
  importParseTime ← GetMilisecondsSince importParseTimeStart;
  let importParseTimeRel :=
    JsNum.div importParseTime (JsNum.of_nat (length importInfo)) in
  logger_log debug (MsgImportParsing importParseTime importParseTimeRel);;
  (* 4. Sessions *)
  sessionTimeStart ← hrtime_bigint;
  sessionInfo ← await StSessions
    (CreateSessions env (id user) importType (game parsed)
       (scorePlaytypeMap parsedInfo) logger);
  sessionTime ← GetMilisecondsSince sessionTimeStart;
  let sessionTimeRel :=
    JsNum.div sessionTime (JsNum.of_nat (length sessionInfo)) in
  logger_log debug (MsgSession sessionTime sessionTimeRel);;
  (* 5. PersonalBests *)
  pbTimeStart ← hrtime_bigint;
  await StPBs (ProcessPBs env (id user) (chartIDs parsedInfo) logger);;
  pbTime ← GetMilisecondsSince pbTimeStart;
  let pbTimeRel :=
    JsNum.div pbTime (JsNum.of_nat (JsSet.size (chartIDs parsedInfo))) in
  logger_log debug (MsgPB pbTime pbTimeRel);;
  let playtypes := JsObj.keys (scorePlaytypeMap parsedInfo) in
  (* 6. Game Stats *)
  ugsTimeStart ← hrtime_bigint;
  classDeltas ← UpdateUsersGameStats (game parsed) playtypes (id user) logger;
  ugsTime ← GetMilisecondsSince ugsTimeStart;
  logger_log debug (MsgUGS ugsTime);;
  (* 7. Goals *)
  goalTimeStart ← hrtime_bigint;
  goalInfo ← await StGoals
    (UpdateUsersGoals env (game parsed) (id user) (chartIDs parsedInfo) logger);
  goalTime ← GetMilisecondsSince goalTimeStart;
  logger_log debug (MsgGoal goalTime);;
  (* 8. Milestones *)
  milestoneTimeStart ← hrtime_bigint;
  milestoneInfo ← await StMilestones
    (UpdateUsersMilestones env goalInfo (game parsed) playtypes (id user)
       logger);
  milestoneTime ← GetMilisecondsSince milestoneTimeStart;
  logger_log debug (MsgMilestone milestoneTime);;
  (* 9. Finalise Import Document *)
  timeFinished ← Date_now;
  let ImportDocument :=
    {| importType := importType;
       idStrings := (λ e, (game parsed, e)) <$> playtypes;
       doc_scoreIDs := scoreIDs parsedInfo;
       doc_errors := errors parsedInfo;
       importID := importID;
       timeFinished := timeFinished;
       timeStarted := timeStarted;
       createdSessions := sessionInfo;
       userID := id user;
       classDeltas := classDeltas;
       goalInfo := goalInfo;
       milestoneInfo := milestoneInfo;
       userIntent := userIntent |} in
  let logMessage :=
    MsgImportTook (timeFinished - timeStarted) (length importInfo)
      (length (errors parsedInfo)) (length (scoreIDs parsedInfo))
      (length sessionInfo)
      (JsNum.div (JsNum.of_Z (timeFinished - timeStarted))
         (JsNum.of_nat (length importInfo))) in
  log_import_summary (scoreIDs parsedInfo) logMessage;;
  db_imports_insert ImportDocument;;
  timestamp ← Date_now;
  db_import_timings_insert
    {| it_importID := importID;
       it_timestamp := timestamp;
       it_total := timeFinished - timeStarted;
       it_rel := {| rel_import := importTimeRel;
                    rel_importParse := importParseTimeRel;
                    rel_pb := pbTimeRel;
                    rel_session := sessionTimeRel |};
       it_abs := {| abs_parse := parseTime;
                    abs_import := importTime;
                    abs_importParse := importParseTime;
                    abs_session := sessionTime;
                    abs_pb := pbTime;
                    abs_ugs := ugsTime;
                    abs_goal := goalTime;
                    abs_milestone := milestoneTime |} |};;
  ret ImportDocument.
End Orchestrator.

(** ** Specification-side vocabulary for the timings *)

(** A clock that never goes backwards. *)
Definition nondecreasing (clock : nat → Z) : Prop :=
  ∀ n m, n ≤ m → (clock n ≤ clock m)%Z.

(** A clock that advances between any two reads. *)
Definition strictly_increasing (clock : nat → Z) : Prop :=
  ∀ n, (clock n < clock (S n))%Z.

(** Every absolute duration of a timing record is [>= 0]. *)
Definition abs_nonneg (a : TimingsAbs) : Prop :=
  JsNum.nonneg (abs_parse a) = true
  ∧ JsNum.nonneg (abs_import a) = true
  ∧ JsNum.nonneg (abs_importParse a) = true
  ∧ JsNum.nonneg (abs_session a) = true
  ∧ JsNum.nonneg (abs_pb a) = true
  ∧ JsNum.nonneg (abs_ugs a) = true
  ∧ JsNum.nonneg (abs_goal a) = true
  ∧ JsNum.nonneg (abs_milestone a) = true.

(** A per-item duration [rel] is the stage's duration [abs] over the
    [count] of items; it is [>= 0], or it is NaN because no item was
    processed in no time. *)
Definition per_item (abs : JsNum.t) (count : nat) (rel : JsNum.t) : Prop :=
  rel = JsNum.div abs (JsNum.of_nat count)
  ∧ (JsNum.nonneg rel = true
     ∨ (count = 0 ∧ abs = JsNum.of_Z 0 ∧ rel = JsNum.NaN)).

(** What a division by a zero count gives. *)
Definition not_finite (x : JsNum.t) : Prop :=
  x = JsNum.NaN ∨ x = JsNum.PosInf ∨ x = JsNum.NegInf.

(** The values of a list by their first occurrence: each once, in the
    order they first appear. *)
Definition first_occurrences {A} `{EqDecision A} (l : list A) : list A :=
  reverse (remove_dups (reverse l)).

(** ** A small instance

    Two play types, collaborators that count their calls, and an import
    stage that yields a given batch. *)
Module Example.
Inductive Playtype := SP | DP.

#[global] Instance Playtype_eq_dec : EqDecision Playtype.
Proof. solve_decision. Defined.

Definition score (sid cid : string) (pt : Playtype)
    : ScoreDocument Playtype unit :=
  {| scoreID := sid; chartID := cid; playtype := pt; scoreData := () |}.

Definition batch : list (ImportProcessingInfo Playtype unit) :=
  [ Success (score "s1" "c1" SP);
    Failure "KTDataNotFound" "no such chart";
    Success (score "s2" "c1" DP);
    Success (score "s3" "c2" SP) ].

(** The collaborators' state is the number of calls made; an update of
    the stats of a play type in [failing] throws. *)
Definition env (Date_clock hrtime_clock : nat → Z)
    (importInfo : list (ImportProcessingInfo Playtype unit))
    (failing : list Playtype)
    : @Env Playtype unit unit string string unit unit unit unit string
        string unit unit string nat :=
  {| Date_clock := Date_clock;
     hrtime_clock := hrtime_clock;
     settles_at := λ _ x, x;
     CreateImportLoggerAndID := λ _ _ x, (("import-1", ()), x);
     ImportAllIterableData := λ _ _ _ _ _ x, (Ok importInfo, S x);
     CreateSessions := λ _ _ _ m _ x,
       (Ok ((λ _, "session") <$> JsObj.keys m), S x);
     ProcessPBs := λ _ _ _ x, (Ok (), S x);
     UpdateUsersGamePlaytypeStats := λ _ pt _ _ _ x,
       (if decide (pt ∈ failing) then Throw "stats" else Ok ["delta"], S x);
     UpdateUsersGoals := λ _ _ _ _ x, (Ok (), S x);
     UpdateUsersMilestones := λ _ _ _ _ _ x, (Ok (), S x);
     db_imports_insert_rejects := λ _ _, None |}.

(** The same environment with another session builder: one that returns
    [sessions] whatever the groups, or one that throws [e]; and with a
    goal evaluator that throws [e]. *)
Definition with_CreateSessions (result : Res (list string))
    (env : @Env Playtype unit unit string string unit unit unit unit string
             string unit unit string nat)
    : @Env Playtype unit unit string string unit unit unit unit string
        string unit unit string nat :=
  {| Date_clock := Date_clock env;
     hrtime_clock := hrtime_clock env;
     settles_at := settles_at env;
     CreateImportLoggerAndID := CreateImportLoggerAndID env;
     ImportAllIterableData := ImportAllIterableData env;
     CreateSessions := λ _ _ _ _ _ x, (result, S x);
     ProcessPBs := ProcessPBs env;
     UpdateUsersGamePlaytypeStats := UpdateUsersGamePlaytypeStats env;
     UpdateUsersGoals := UpdateUsersGoals env;
     UpdateUsersMilestones := UpdateUsersMilestones env;
     db_imports_insert_rejects := db_imports_insert_rejects env |}.


Definition user : PublicUserDocument := {| id := 1; userData := () |}.

Definition InputParser
    : @ImportInputParser string unit unit unit unit string nat :=
  λ _ x,
    (Ok {| iterable := (); ConverterFunction := (); context := ();
           game := "iidx" |}, S x).

Definition world
    : @World Playtype string string string string unit unit string nat :=
  {| ext := 0; date_reads := 0; hrtime_reads := 0; logged := [];
     db_imports := []; db_import_timings := []; awaited := [] |}.

(** Clocks that advance by one millisecond at every read, and a clock
    that stands still. *)
Definition ticking (n : nat) : Z := Z.of_nat n.
Definition ticking_ns (n : nat) : Z := Z.of_nat n * 1000000.
Definition stalled (n : nat) : Z := 0.
End Example.

(** * Properties *)

(** ** The containers *)

Section JsSetFacts.
Context {A : Type} `{EqDecision A}.
Implicit Types (s : JsSet.t A) (x y : A).

Lemma JsSet_elem_of_add x y s : y ∈ JsSet.add x s ↔ y = x ∨ y ∈ s.
Proof.
  unfold JsSet.add. destruct (decide (x ∈ s)) as [Hin|Hin].
  - split; [auto|]. intros [->|?]; done.
  - rewrite elem_of_app, list_elem_of_singleton. tauto.
Qed.

Lemma JsSet_NoDup_add x s : NoDup s → NoDup (JsSet.add x s).
Proof.
  intros Hs. unfold JsSet.add. destruct (decide (x ∈ s)) as [Hin|Hin]; [done|].
  apply NoDup_app. split_and!; [done| |apply NoDup_singleton].
  intros y Hy ->%list_elem_of_singleton. done.
Qed.
End JsSetFacts.

Section JsObjFacts.
Context {K V : Type} `{EqDecision K}.
Implicit Types (o : JsObj.t K V) (k : K) (v : V).

Lemma JsObj_get_None k o : JsObj.get k o = None ↔ k ∉ JsObj.keys o.
Proof.
  unfold JsObj.keys. induction o as [|[k' v'] o IH]; simpl.
  - split; [intros _; apply not_elem_of_nil|done].
  - rewrite not_elem_of_cons. destruct (decide (k = k')) as [->|Hne].
    + split; [done|]. intros [? _]. done.
    + rewrite IH. tauto.
Qed.

Lemma JsObj_get_Some_keys k o v : JsObj.get k o = Some v → k ∈ JsObj.keys o.
Proof.
  intros Hget. destruct (decide (k ∈ JsObj.keys o)) as [|Hn]; [done|].
  apply JsObj_get_None in Hn. congruence.
Qed.

Lemma JsObj_get_set k k' v o :
  JsObj.get k' (JsObj.set k v o)
  = if decide (k' = k) then Some v else JsObj.get k' o.
Proof.
  induction o as [|[k1 v1] o IH]; simpl.
  - destruct (decide (k' = k)); done.
  - destruct (decide (k = k1)) as [->|Hne]; simpl.
    + destruct (decide (k' = k1)); done.
    + destruct (decide (k' = k1)) as [->|Hne'].
      * destruct (decide (k1 = k)); [congruence|done].
      * apply IH.
Qed.

Lemma JsObj_keys_set k v o :
  JsObj.keys (JsObj.set k v o)
  = if decide (k ∈ JsObj.keys o) then JsObj.keys o else JsObj.keys o ++ [k].
Proof.
  unfold JsObj.keys. induction o as [|[k1 v1] o IH]; csimpl.
  - destruct (decide (k ∈ [])) as [Hin|_]; [|done]. by apply elem_of_nil in Hin.
  - destruct (decide (k = k1)) as [->|Hne]; csimpl.
    + rewrite decide_True; [done|]. apply elem_of_cons; auto.
    + rewrite IH. destruct (decide (k ∈ o.*1)) as [Hin|Hin].
      * rewrite decide_True; [done|]. apply elem_of_cons; auto.
      * rewrite decide_False; [done|]. rewrite elem_of_cons. tauto.
Qed.

Lemma JsObj_NoDup_keys_set k v o :
  NoDup (JsObj.keys o) → NoDup (JsObj.keys (JsObj.set k v o)).
Proof.
  intros Ho. rewrite JsObj_keys_set.
  destruct (decide (k ∈ JsObj.keys o)) as [Hin|Hin]; [done|].
  apply NoDup_app. split_and!; [done| |apply NoDup_singleton].
  intros y Hy ->%list_elem_of_singleton. done.
Qed.
End JsObjFacts.

(** ** The partition made by [ParseImportInfo] *)

Section PartitionFacts.
Context {Playtype ScoreData : Type} `{EqDecision Playtype}.
Implicit Types (importInfo : list (ImportProcessingInfo Playtype ScoreData)).
Implicit Types (info : ImportProcessingInfo Playtype ScoreData).
Implicit Types (score : ScoreDocument Playtype ScoreData) (pt : Playtype).

Lemma ParseImportInfo_snoc importInfo info :
  ParseImportInfo (importInfo ++ [info])
  = ParseImportInfo_step (ParseImportInfo importInfo) info.
Proof. unfold ParseImportInfo. by rewrite foldl_app. Qed.

Lemma accepted_snoc importInfo info :
  accepted (importInfo ++ [info])
  = accepted importInfo
    ++ match info with Success score => [score] | Failure _ _ => [] end.
Proof. unfold accepted. rewrite omap_app. by destruct info. Qed.

Lemma failures_snoc importInfo info :
  failures (importInfo ++ [info])
  = failures importInfo
    ++ match info with
       | Success _ => []
       | Failure type message =>
           [{| err_type := type; err_message := message |}]
       end.
Proof. unfold failures. rewrite omap_app. by destruct info. Qed.

Lemma ParseImportInfo_scoreIDs importInfo :
  scoreIDs (ParseImportInfo importInfo) = scoreID <$> accepted importInfo.
Proof.
  induction importInfo as [|info importInfo IH] using rev_ind; [done|].
  rewrite ParseImportInfo_snoc, accepted_snoc, fmap_app.
  destruct info; simpl; rewrite IH; [done|by rewrite app_nil_r].
Qed.

Lemma ParseImportInfo_errors importInfo :
  errors (ParseImportInfo importInfo) = failures importInfo.
Proof.
  induction importInfo as [|info importInfo IH] using rev_ind; [done|].
  rewrite ParseImportInfo_snoc, failures_snoc.
  destruct info; simpl; rewrite IH; [by rewrite app_nil_r|done].
Qed.

Lemma accepted_failures_length importInfo :
  length (accepted importInfo) + length (failures importInfo)
  = length importInfo.
Proof.
  induction importInfo as [|[score|type message] importInfo IH]; simpl; lia.
Qed.

Lemma ParseImportInfo_chartIDs_NoDup importInfo :
  NoDup (chartIDs (ParseImportInfo importInfo)).
Proof.
  induction importInfo as [|info importInfo IH] using rev_ind.
  - apply NoDup_nil_2.
  - rewrite ParseImportInfo_snoc. destruct info; simpl; [|done].
    by apply JsSet_NoDup_add.
Qed.

Lemma ParseImportInfo_chartIDs_elem importInfo (c : string) :
  c ∈ chartIDs (ParseImportInfo importInfo)
  ↔ ∃ score, score ∈ accepted importInfo ∧ chartID score = c.
Proof.
  induction importInfo as [|info importInfo IH] using rev_ind.
  - simpl. split; [by intros ?%elem_of_nil|]. by intros (? & ?%elem_of_nil & _).
  - rewrite ParseImportInfo_snoc, accepted_snoc.
    destruct info as [score|type message]; simpl.
    + rewrite JsSet_elem_of_add, IH. split.
      * intros [->|(s & Hs & <-)]; [exists score|exists s];
          (split; [|done]); rewrite elem_of_app, list_elem_of_singleton; auto.
      * intros (s & [Hs| ->%list_elem_of_singleton]%elem_of_app & <-); eauto.
    + by rewrite app_nil_r.
Qed.

Lemma ParseImportInfo_step_get (acc : ParsedImportInfo Playtype ScoreData)
    info pt :
  JsObj.get pt (scorePlaytypeMap (ParseImportInfo_step acc info))
  = match info with
    | Success score =>
        if decide (pt = playtype score)
        then Some (group pt (scorePlaytypeMap acc) ++ [score])
        else JsObj.get pt (scorePlaytypeMap acc)
    | Failure _ _ => JsObj.get pt (scorePlaytypeMap acc)
    end.
Proof.
  destruct info as [score|type message]; [|done].
  unfold ParseImportInfo_step, group; cbn [scorePlaytypeMap].
  destruct (JsObj.get (playtype score) (scorePlaytypeMap acc)) as [arr|] eqn:Hget;
    rewrite JsObj_get_set; destruct (decide (pt = playtype score)) as [->|];
    try done; by rewrite Hget.
Qed.

Lemma ParseImportInfo_get importInfo pt :
  JsObj.get pt (scorePlaytypeMap (ParseImportInfo importInfo))
  = match filter (λ score, playtype score = pt) (accepted importInfo) with
    | [] => None
    | scores => Some scores
    end.
Proof.
  induction importInfo as [|info importInfo IH] using rev_ind; [done|].
  rewrite ParseImportInfo_snoc, accepted_snoc, filter_app, ParseImportInfo_step_get.
  unfold group. rewrite IH.
  destruct info as [score|type message].
  - rewrite filter_cons, filter_nil.
    destruct (decide (pt = playtype score)) as [->|Hne].
    + rewrite decide_True by done.
      by destruct (filter _ (accepted importInfo)).
    + rewrite decide_False by done. by rewrite app_nil_r.
  - by rewrite filter_nil, app_nil_r.
Qed.

Lemma ParseImportInfo_group importInfo pt :
  group pt (scorePlaytypeMap (ParseImportInfo importInfo))
  = filter (λ score, playtype score = pt) (accepted importInfo).
Proof.
  unfold group. rewrite ParseImportInfo_get.
  by destruct (filter _ (accepted importInfo)).
Qed.

Lemma ParseImportInfo_keys_NoDup importInfo :
  NoDup (JsObj.keys (scorePlaytypeMap (ParseImportInfo importInfo))).
Proof.
  induction importInfo as [|info importInfo IH] using rev_ind.
  - apply NoDup_nil_2.
  - rewrite ParseImportInfo_snoc. destruct info; simpl; [|done].
    destruct (JsObj.get _ _); by apply JsObj_NoDup_keys_set.
Qed.

Lemma ParseImportInfo_keys_elem importInfo pt :
  pt ∈ JsObj.keys (scorePlaytypeMap (ParseImportInfo importInfo))
  ↔ ∃ score, score ∈ accepted importInfo ∧ playtype score = pt.
Proof.
  destruct (decide (pt ∈ JsObj.keys (scorePlaytypeMap (ParseImportInfo importInfo))))
    as [Hin|Hin].
  - split; [intros _|done].
    destruct (JsObj.get pt (scorePlaytypeMap (ParseImportInfo importInfo)))
      as [arr|] eqn:Hget; [|by apply JsObj_get_None in Hget].
    rewrite ParseImportInfo_get in Hget.
    destruct (filter _ (accepted importInfo)) as [|score scores] eqn:Hf; [done|].
    assert (score ∈ filter (λ score, playtype score = pt) (accepted importInfo))
      as [? ?]%list_elem_of_filter by (rewrite Hf; apply elem_of_cons; auto).
    by exists score.
  - split; [done|]. intros (score & Hs & Hpt).
    apply JsObj_get_None in Hin. rewrite ParseImportInfo_get in Hin.
    assert (score ∈ filter (λ score, playtype score = pt) (accepted importInfo))
      as Hf by (by apply list_elem_of_filter).
    destruct (filter _ (accepted importInfo)); [by apply elem_of_nil in Hf|done].
Qed.

Lemma elem_of_accepted importInfo score :
  score ∈ accepted importInfo ↔ Success score ∈ importInfo.
Proof.
  unfold accepted. rewrite list_elem_of_omap. split.
  - intros ([score'|type message] & Hin & Heq); simplify_eq. done.
  - intros Hin. by exists (Success score).
Qed.

Lemma JsObj_elem_of_get {V} (o : JsObj.t Playtype V) pt v :
  NoDup (JsObj.keys o) → (pt, v) ∈ o → JsObj.get pt o = Some v.
Proof.
  unfold JsObj.keys. induction o as [|[k' v'] o IH]; csimpl.
  - by intros _ ?%elem_of_nil.
  - rewrite NoDup_cons. intros [Hk' Ho] [[= -> ->]|Hin]%elem_of_cons.
    + by rewrite decide_True.
    + rewrite decide_False; [by apply IH|].
      intros ->. apply Hk'. apply list_elem_of_fmap. by exists (k', v).
Qed.

(** C1: the accepted score IDs and the failures together count the
    conversion outcomes: [|scoreIDs| + |errors| = |importInfo|]; and one
    more outcome adds one entry to exactly one of the two lists, leaving
    the other as it was. *)
Theorem ParseImportInfo_counts importInfo :
  length (scoreIDs (ParseImportInfo importInfo))
  + length (errors (ParseImportInfo importInfo))
  = length importInfo
  ∧ ∀ info,
      (length (scoreIDs (ParseImportInfo (importInfo ++ [info])))
       = S (length (scoreIDs (ParseImportInfo importInfo)))
       ∧ errors (ParseImportInfo (importInfo ++ [info]))
         = errors (ParseImportInfo importInfo))
      ∨ (scoreIDs (ParseImportInfo (importInfo ++ [info]))
         = scoreIDs (ParseImportInfo importInfo)
         ∧ length (errors (ParseImportInfo (importInfo ++ [info])))
           = S (length (errors (ParseImportInfo importInfo)))).
Proof.
  split.
  - rewrite ParseImportInfo_scoreIDs, ParseImportInfo_errors, length_fmap.
    apply accepted_failures_length.
  - intros info. rewrite ParseImportInfo_snoc.
    destruct info as [score|type message]; [left|right]; simpl;
      rewrite length_app; simpl; split; (done || lia).
Qed.

(** C3: the chart-ID set has no value twice, and it holds exactly the
    chart IDs of the accepted outcomes of the batch. *)
Theorem ParseImportInfo_chartIDs_exactly_once importInfo :
  NoDup (chartIDs (ParseImportInfo importInfo))
  ∧ ∀ c : string,
      c ∈ chartIDs (ParseImportInfo importInfo)
      ↔ ∃ score, Success score ∈ importInfo ∧ chartID score = c.
Proof.
  split; [apply ParseImportInfo_chartIDs_NoDup|].
  intros c. rewrite ParseImportInfo_chartIDs_elem.
  by setoid_rewrite elem_of_accepted.
Qed.

(** C4: the scores stored under a play type are the accepted scores of
    that play type, in the order of the input. *)
Theorem ParseImportInfo_group_stable importInfo pt :
  group pt (scorePlaytypeMap (ParseImportInfo importInfo))
  = filter (λ score, playtype score = pt) (accepted importInfo).
Proof. apply ParseImportInfo_group. Qed.

(** C8: every play type that is a key of the groups map has a non-empty
    list of scores, and a play type is a key exactly when some accepted
    score of the batch has it. *)
Theorem ParseImportInfo_groups_nonempty importInfo :
  (∀ pt scores,
     (pt, scores) ∈ scorePlaytypeMap (ParseImportInfo importInfo) →
     scores ≠ [])
  ∧ (∀ pt,
       pt ∈ JsObj.keys (scorePlaytypeMap (ParseImportInfo importInfo))
       ↔ ∃ score, Success score ∈ importInfo ∧ playtype score = pt).
Proof.
  split.
  - intros pt scores Hin.
    apply JsObj_elem_of_get in Hin; [|apply ParseImportInfo_keys_NoDup].
    rewrite ParseImportInfo_get in Hin.
    destruct (filter _ (accepted importInfo)); by simplify_eq.
  - intros pt. rewrite ParseImportInfo_keys_elem.
    by setoid_rewrite elem_of_accepted.
Qed.

(** C9: over the whole batch, [scoreIDs] lists the IDs of the accepted
    outcomes and [errors] the failed outcomes, each in the order of the
    input: both are read off sublists of the input. *)
Theorem ParseImportInfo_order_preserving importInfo :
  scoreIDs (ParseImportInfo importInfo) = scoreID <$> accepted importInfo
  ∧ errors (ParseImportInfo importInfo) = failures importInfo
  ∧ sublist (Success <$> accepted importInfo) importInfo
  ∧ sublist
      ((λ e, Failure (err_type e) (err_message e)) <$> failures importInfo)
      importInfo.
Proof.
  split_and!.
  - apply ParseImportInfo_scoreIDs.
  - apply ParseImportInfo_errors.
  - induction importInfo as [|[score|type message] importInfo IH]; csimpl.
    + constructor.
    + by apply sublist_skip.
    + by apply sublist_cons.
  - induction importInfo as [|[score|type message] importInfo IH]; csimpl.
    + constructor.
    + by apply sublist_cons.
    + by apply sublist_skip.
Qed.

(** *** More on the partition *)

Lemma first_occurrences_snoc {A} `{EqDecision A} (l : list A) x :
  first_occurrences (l ++ [x])
  = if decide (x ∈ l) then first_occurrences l else first_occurrences l ++ [x].
Proof.
  unfold first_occurrences. rewrite reverse_snoc. simpl.
  destruct (decide_rel elem_of x (reverse l)) as [Hin|Hin];
    rewrite elem_of_reverse in Hin.
  - by rewrite decide_True.
  - by rewrite decide_False, reverse_cons.
Qed.

Lemma elem_of_first_occurrences {A} `{EqDecision A} (l : list A) x :
  x ∈ first_occurrences l ↔ x ∈ l.
Proof.
  unfold first_occurrences.
  by rewrite elem_of_reverse, elem_of_remove_dups, elem_of_reverse.
Qed.

Lemma JsObj_values_set_new {V} (o : JsObj.t Playtype (list V)) pt v :
  JsObj.get pt o = None →
  concat (JsObj.set pt [v] o).*2 = concat o.*2 ++ [v].
Proof.
  induction o as [|[k' v'] o IH]; csimpl; [done|].
  destruct (decide (pt = k')) as [->|Hne]; [done|].
  intros Hget. csimpl. by rewrite IH, app_assoc.
Qed.

Lemma JsObj_values_set_push {V} (o : JsObj.t Playtype (list V)) pt arr v :
  JsObj.get pt o = Some arr →
  concat (JsObj.set pt (arr ++ [v]) o).*2 ≡ₚ concat o.*2 ++ [v].
Proof.
  induction o as [|[k' v'] o IH]; csimpl; [done|].
  destruct (decide (pt = k')) as [->|Hne].
  - intros [= ->]. csimpl. rewrite <- !app_assoc.
    apply Permutation_app_head, Permutation_app_comm.
  - intros Hget. csimpl. rewrite IH by done. by rewrite app_assoc.
Qed.

(** X1: a batch whose outcomes all failed leaves no score ID, no chart
    ID and no group, and reports every outcome as an error. *)
Theorem ParseImportInfo_all_failed importInfo :
  (∀ score, Success score ∉ importInfo) →
  scoreIDs (ParseImportInfo importInfo) = []
  ∧ chartIDs (ParseImportInfo importInfo) = JsSet.empty
  ∧ scorePlaytypeMap (ParseImportInfo importInfo) = JsObj.create_null
  ∧ length (errors (ParseImportInfo importInfo)) = length importInfo.
Proof.
  induction importInfo as [|info importInfo IH] using rev_ind; [done|].
  intros Hfailed. rewrite ParseImportInfo_snoc.
  destruct IH as (IH1 & IH2 & IH3 & IH4).
  { intros score Hin. apply (Hfailed score), elem_of_app. auto. }
  destruct info as [score|type message].
  - destruct (Hfailed score). apply elem_of_app. right.
    by apply list_elem_of_singleton.
  - simpl. rewrite !length_app. simpl. split_and!; [done..|lia].
Qed.

(** X2: the groups partition the accepted scores: joined in the order of
    the keys, they hold every accepted score as often as the batch has
    it, and no other. *)
Theorem ParseImportInfo_groups_partition importInfo :
  concat (scorePlaytypeMap (ParseImportInfo importInfo)).*2
  ≡ₚ accepted importInfo.
Proof.
  induction importInfo as [|info importInfo IH] using rev_ind; [done|].
  rewrite ParseImportInfo_snoc, accepted_snoc.
  destruct info as [score|type message]; cbn [ParseImportInfo_step scorePlaytypeMap].
  - destruct (JsObj.get (playtype score) _) as [arr|] eqn:Hget.
    + rewrite JsObj_values_set_push by done. by rewrite IH.
    + rewrite JsObj_values_set_new by done. by rewrite IH.
  - by rewrite app_nil_r.
Qed.

Lemma ParseImportInfo_step_keys (acc : ParsedImportInfo Playtype ScoreData)
    info :
  JsObj.keys (scorePlaytypeMap (ParseImportInfo_step acc info))
  = match info with
    | Success score =>
        if decide (playtype score ∈ JsObj.keys (scorePlaytypeMap acc))
        then JsObj.keys (scorePlaytypeMap acc)
        else JsObj.keys (scorePlaytypeMap acc) ++ [playtype score]
    | Failure _ _ => JsObj.keys (scorePlaytypeMap acc)
    end.
Proof.
  destruct info as [score|type message]; [|done].
  unfold ParseImportInfo_step; cbn [scorePlaytypeMap].
  destruct (JsObj.get _ _); apply JsObj_keys_set.
Qed.

(** X3: the chart-ID set and the keys of the groups map are in insertion
    order: chart IDs and play types are listed by their first occurrence
    among the accepted scores of the batch. *)
Theorem ParseImportInfo_insertion_order importInfo :
  chartIDs (ParseImportInfo importInfo)
  = first_occurrences (chartID <$> accepted importInfo)
  ∧ JsObj.keys (scorePlaytypeMap (ParseImportInfo importInfo))
    = first_occurrences (playtype <$> accepted importInfo).
Proof.
  induction importInfo as [|info importInfo [IHc IHk]] using rev_ind; [done|].
  rewrite ParseImportInfo_snoc, ParseImportInfo_step_keys, accepted_snoc,
    !fmap_app.
  destruct info as [score|type message].
  - change (chartID <$> [score]) with [chartID score].
    change (playtype <$> [score]) with [playtype score].
    rewrite !first_occurrences_snoc. cbn [ParseImportInfo_step chartIDs].
    unfold JsSet.add. rewrite IHc, IHk.
    split; repeat case_decide; rewrite ?elem_of_first_occurrences in *; done.
  - simpl. by rewrite !app_nil_r.
Qed.

(** X4: there are at most as many distinct chart IDs, and at most as many
    groups, as accepted scores. *)
Theorem ParseImportInfo_sizes importInfo :
  JsSet.size (chartIDs (ParseImportInfo importInfo))
  ≤ length (scoreIDs (ParseImportInfo importInfo))
  ∧ length (JsObj.keys (scorePlaytypeMap (ParseImportInfo importInfo)))
    ≤ length (scoreIDs (ParseImportInfo importInfo)).
Proof.
  induction importInfo as [|info importInfo [IHc IHk]] using rev_ind;
    [simpl; lia|].
  rewrite ParseImportInfo_snoc.
  destruct info as [score|type message]; [|done].
  cbn [ParseImportInfo_step scorePlaytypeMap chartIDs scoreIDs].
  rewrite length_app. simpl. split.
  - unfold JsSet.size, JsSet.add in *. destruct (decide _); [lia|].
    rewrite length_app. simpl. lia.
  - destruct (JsObj.get _ _); rewrite JsObj_keys_set;
      destruct (decide _); rewrite ?length_app; simpl; lia.
Qed.
End PartitionFacts.

(** ** JavaScript numbers *)

Lemma JsNum_nonneg_Fin (q : Qc) : JsNum.nonneg (JsNum.Fin q) = true ↔ (0 ≤ q)%Qc.
Proof.
  unfold JsNum.nonneg, JsNum.of_Z; simpl.
  rewrite bool_decide_eq_true. by rewrite Z2Qc_inj_0.
Qed.

Lemma Qc_div_nonneg (p q : Qc) : (0 ≤ p)%Qc → (0 < q)%Qc → (0 ≤ p / q)%Qc.
Proof.
  intros Hp Hq. unfold Qcdiv.
  apply Qcmult_nonneg_nonneg; [done|]. by apply Qclt_le_weak, Qcinv_pos.
Qed.

Lemma Qc_of_nat_pos (n : nat) : n ≠ 0 → (0 < Qc_of_Z (Z.of_nat n))%Qc.
Proof.
  intros Hn. rewrite <- Z2Qc_inj_0.
  apply (proj1 (Z2Qc_inj_lt 0 (Z.of_nat n))). lia.
Qed.

Lemma JsNum_div_million (d : Z) :
  JsNum.div (JsNum.of_Z d) (JsNum.of_Z 1000000)
  = JsNum.Fin (Qc_of_Z d / Qc_of_Z 1000000).
Proof.
  unfold JsNum.div, JsNum.of_Z. rewrite decide_False; [done|].
  rewrite <- Z2Qc_inj_0. by intros ?%Z2Qc_inj.
Qed.

Lemma JsNum_elapsed_nonneg (start now : Z) :
  (start ≤ now)%Z →
  JsNum.nonneg (JsNum.div (JsNum.of_Z (now - start)) (JsNum.of_Z 1000000))
  = true.
Proof.
  intros Hle. rewrite JsNum_div_million. apply JsNum_nonneg_Fin.
  apply Qc_div_nonneg.
  - rewrite <- Z2Qc_inj_0. apply (proj1 (Z2Qc_inj_le 0 (now - start))). lia.
  - rewrite <- Z2Qc_inj_0. by apply (proj1 (Z2Qc_inj_lt 0 1000000)).
Qed.

Lemma JsNum_per_item (abs : JsNum.t) (count : nat) :
  JsNum.nonneg abs = true →
  per_item abs count (JsNum.div abs (JsNum.of_nat count)).
Proof.
  intros Habs. split; [done|].
  destruct abs as [| | |p]; try done.
  - left. unfold JsNum.div, JsNum.of_nat, JsNum.of_Z.
    rewrite decide_True; [done|].
    rewrite <- Z2Qc_inj_0. apply (proj1 (Z2Qc_inj_le 0 (Z.of_nat count))). lia.
  - apply JsNum_nonneg_Fin in Habs.
    unfold JsNum.div, JsNum.of_nat, JsNum.of_Z.
    destruct (decide (count = 0)) as [->|Hcount].
    + rewrite decide_True by apply Z2Qc_inj_0.
      destruct (decide (p = 0%Qc)) as [->|Hp].
      * right. split_and!; [done| |done]. by rewrite <- Z2Qc_inj_0.
      * left. rewrite decide_True; [done|].
        by destruct (Qcle_lt_or_eq _ _ Habs).
    + left. pose proof (Qc_of_nat_pos count Hcount) as Hpos.
      rewrite decide_False.
      * by apply JsNum_nonneg_Fin, Qc_div_nonneg.
      * intros Heq. rewrite Heq in Hpos. by apply Qclt_not_le in Hpos.
Qed.

Lemma JsNum_div_zero (abs : JsNum.t) :
  not_finite (JsNum.div abs (JsNum.of_nat 0)).
Proof.
  unfold not_finite, JsNum.div, JsNum.of_nat, JsNum.of_Z.
  destruct abs as [| | |p]; repeat case_decide; auto.
  exfalso. eauto using Z2Qc_inj_0.
Qed.

(** ** The orchestrator *)

Section OrchestratorFacts.
Context {Playtype ScoreData : Type} `{EqDecision Playtype}.
Context {UserData Game ImportTypes Logger : Type}.
Context {Iterable Converter ConverterContext : Type}.
Context {SessionInfo ClassDelta GoalInfo MilestoneInfo : Type}.
Context {Err Ext : Type}.

Local Abbreviation World := (@World Playtype Game ImportTypes SessionInfo
  ClassDelta GoalInfo MilestoneInfo Err Ext).
Local Abbreviation M := (@M Playtype Game ImportTypes SessionInfo
  ClassDelta GoalInfo MilestoneInfo Err Ext).
Local Abbreviation Res := (@Res Err).
Local Abbreviation Collab := (@Collab Err Ext).

Variable env : @Env Playtype ScoreData UserData Game ImportTypes Logger
  Iterable Converter ConverterContext SessionInfo ClassDelta GoalInfo
  MilestoneInfo Err Ext.

Lemma wp_bind {A B} (c : M A) (k : A → M B) Q w :
  wp c (λ r w', match r with
                | Ok a => wp (k a) Q w'
                | Throw e => Q (Throw e) w'
                end) w →
  wp (c ≫= k) Q w.
Proof.
  unfold wp, mbind, M_bind, bind. by destruct (c w) as [[a|e] w'].
Qed.

Lemma wp_ret {A} (a : A) Q w : Q (Ok a) w → wp (mret a : M A) Q w.
Proof. done. Qed.

Lemma wp_Date_now Q (w : World) :
  Q (Ok (Date_clock env (date_reads w)))
    {| ext := ext w; date_reads := S (date_reads w);
       hrtime_reads := hrtime_reads w; logged := logged w;
       db_imports := db_imports w; db_import_timings := db_import_timings w;
       awaited := awaited w |} →
  wp (Date_now env) Q w.
Proof. done. Qed.

Lemma wp_hrtime_bigint Q (w : World) :
  Q (Ok (hrtime_clock env (hrtime_reads w)))
    {| ext := ext w; date_reads := date_reads w;
       hrtime_reads := S (hrtime_reads w); logged := logged w;
       db_imports := db_imports w; db_import_timings := db_import_timings w;
       awaited := awaited w |} →
  wp (hrtime_bigint env) Q w.
Proof. done. Qed.

Lemma wp_GetMilisecondsSince start Q (w : World) :
  Q (Ok (JsNum.div (JsNum.of_Z (hrtime_clock env (hrtime_reads w) - start))
           (JsNum.of_Z 1000000)))
    {| ext := ext w; date_reads := date_reads w;
       hrtime_reads := S (hrtime_reads w); logged := logged w;
       db_imports := db_imports w; db_import_timings := db_import_timings w;
       awaited := awaited w |} →
  wp (GetMilisecondsSince env start) Q w.
Proof. done. Qed.

Lemma wp_logger_log level msg Q (w : World) :
  Q (Ok ())
    {| ext := ext w; date_reads := date_reads w;
       hrtime_reads := hrtime_reads w; logged := logged w ++ [(level, msg)];
       db_imports := db_imports w; db_import_timings := db_import_timings w;
       awaited := awaited w |} →
  wp (logger_log level msg) Q w.
Proof. done. Qed.

Lemma wp_call {A} (c : Ext → A * Ext) Q (w : World) :
  (∀ a x, c (ext w) = (a, x) →
     Q (Ok a)
       {| ext := x; date_reads := date_reads w;
          hrtime_reads := hrtime_reads w; logged := logged w;
          db_imports := db_imports w;
          db_import_timings := db_import_timings w;
          awaited := awaited w |}) →
  wp (call c) Q w.
Proof.
  intros HQ. unfold wp, call. destruct (c (ext w)) as [a x] eqn:Hc. by apply HQ.
Qed.

Lemma wp_await {A} st (c : Collab A) Q (w : World) :
  (∀ r x, c (ext w) = (r, x) →
     Q r
       {| ext := x; date_reads := date_reads w;
          hrtime_reads := hrtime_reads w; logged := logged w;
          db_imports := db_imports w;
          db_import_timings := db_import_timings w;
          awaited := awaited w ++ [(st, thrown r)] |}) →
  wp (await st c) Q w.
Proof.
  intros HQ. unfold wp, await, settle.
  destruct (c (ext w)) as [r x] eqn:Hc. by apply HQ.
Qed.

Lemma wp_db_imports_insert doc Q (w : World) :
  (∀ e, db_imports_insert_rejects env doc (ext w) = Some e →
     Q (Throw e)
       {| ext := ext w; date_reads := date_reads w;
          hrtime_reads := hrtime_reads w; logged := logged w;
          db_imports := db_imports w;
          db_import_timings := db_import_timings w;
          awaited := awaited w ++ [(StInsert, Some e)] |}) →
  (db_imports_insert_rejects env doc (ext w) = None →
     Q (Ok ())
       {| ext := ext w; date_reads := date_reads w;
          hrtime_reads := hrtime_reads w; logged := logged w;
          db_imports := db_imports w ++ [doc];
          db_import_timings := db_import_timings w;
          awaited := awaited w ++ [(StInsert, None)] |}) →
  wp (db_imports_insert env doc) Q w.
Proof.
  intros HT HO. unfold wp, db_imports_insert.
  destruct (db_imports_insert_rejects env doc (ext w)) as [e|] eqn:Hr; simpl; auto.
Qed.

Lemma wp_db_import_timings_insert t Q (w : World) :
  Q (Ok ())
    {| ext := ext w; date_reads := date_reads w;
       hrtime_reads := hrtime_reads w; logged := logged w;
       db_imports := db_imports w;
       db_import_timings := db_import_timings w ++ [t];
       awaited := awaited w |} →
  wp (db_import_timings_insert t) Q w.
Proof. done. Qed.

Lemma wp_log_import_summary scoreIDs msg Q (w : World) :
  (∀ level,
     level = (if decide (500 < length scoreIDs) then info
              else if decide (1 < length scoreIDs) then verbose else debug) →
     Q (Ok ())
       {| ext := ext w; date_reads := date_reads w;
          hrtime_reads := hrtime_reads w; logged := logged w ++ [(level, msg)];
          db_imports := db_imports w;
          db_import_timings := db_import_timings w;
          awaited := awaited w |}) →
  wp (log_import_summary scoreIDs msg) Q w.
Proof.
  intros HQ. unfold log_import_summary.
  repeat case_decide; apply wp_logger_log, HQ; repeat case_decide; done || lia.
Qed.

(** *** [Promise.all] and the fan-out *)

Lemma called_in_turn_length {A} (cs : list (Stage Playtype * Collab A))
    x settled x' :
  called_in_turn env cs x settled x' → length settled = length cs.
Proof. induction 1; simpl; congruence. Qed.

Lemma settle_all_run {A} (promises : list (Stage Playtype * Collab A))
    (w : World) :
  ∃ settled x,
    settle_all env promises w
    = (settled,
       {| ext := x; date_reads := date_reads w;
          hrtime_reads := hrtime_reads w; logged := logged w;
          db_imports := db_imports w;
          db_import_timings := db_import_timings w;
          awaited := awaited w
            ++ zip_with (λ p r, (p.1, thrown r)) promises settled.*1 |})
    ∧ called_in_turn env promises (ext w) settled x.
Proof.
  revert w. induction promises as [|[st c] promises IH]; intros w.
  - exists [], (ext w). split; [|constructor].
    simpl. rewrite app_nil_r. by destruct w.
  - simpl. unfold settle. destruct (c (ext w)) as [r x1] eqn:Hc.
    match goal with |- context [settle_all env promises ?w1] =>
      destruct (IH w1) as (settled & x & -> & Hrs) end.
    exists ((r, settles_at env st (ext w)) :: settled), x. simpl in *. split.
    + by rewrite <- app_assoc.
    + by econstructor.
Qed.

Lemma first_rejection_None {A} (settled : list (Res A * nat)) :
  first_rejection settled = None ↔ settled.*1 = Ok <$> fulfilled settled.
Proof.
  induction settled as [|[[a|e] t] settled IH]; csimpl.
  - done.
  - rewrite IH. split; [by intros ->|]. by intros [= ?].
  - split.
    + destruct (first_rejection settled) as [[e' t']|]; [|done].
      by destruct (decide (t' < t)).
    + intros Heq. by destruct (fulfilled settled).
Qed.

Lemma fulfilled_Ok {A} (vs : list A) (settled : list (Res A * nat)) :
  settled.*1 = Ok <$> vs → fulfilled settled = vs.
Proof.
  revert vs. induction settled as [|[[a|e] t] settled IH]; intros [|v vs];
    csimpl; try done.
  intros [= -> Hrs]. f_equal. by apply IH.
Qed.

Lemma first_rejection_Some {A} (settled : list (Res A * nat)) e t :
  first_rejection settled = Some (e, t) →
  (Throw e, t) ∈ settled
  ∧ ∀ e' t', (Throw e', t') ∈ settled → t ≤ t'.
Proof.
  revert e t. induction settled as [|[[a|e0] t0] settled IH]; intros e t;
    simpl; [done| |].
  - intros [Hin Hmin]%IH. split; [by apply list_elem_of_further|].
    intros e' t' [[=]|Hin']%elem_of_cons. by eapply Hmin.
  - destruct (first_rejection settled) as [[e1 t1]|] eqn:Hfirst.
    + destruct (IH e1 t1 eq_refl) as [Hin Hmin].
      destruct (decide (t1 < t0)) as [Hlt|Hge]; intros [= <- <-].
      * split; [by apply list_elem_of_further|].
        intros e' t' [[= -> ->]|Hin']%elem_of_cons; [lia|by eapply Hmin].
      * split; [apply list_elem_of_here|].
        intros e' t' [[= -> ->]|Hin']%elem_of_cons; [lia|].
        apply Hmin in Hin'. lia.
    + intros [= <- <-]. split; [apply list_elem_of_here|].
      intros e' t' [[= -> ->]|Hin']%elem_of_cons; [lia|].
      apply first_rejection_None in Hfirst.
      apply (list_elem_of_fmap_2 fst) in Hin'. rewrite Hfirst in Hin'.
      by apply list_elem_of_fmap in Hin' as (? & [=] & _).
Qed.

Lemma Promise_all_Ok {A} (settled : list (Res A * nat)) vs :
  Promise_all settled = Ok vs ↔ settled.*1 = Ok <$> vs.
Proof.
  unfold Promise_all. split.
  - destruct (first_rejection settled) as [[e t]|] eqn:Hfirst; [done|].
    intros [= <-]. by apply first_rejection_None.
  - intros Hrs. pose proof (fulfilled_Ok _ _ Hrs) as Hvs.
    rewrite <- Hvs in Hrs. apply first_rejection_None in Hrs.
    by rewrite Hrs, Hvs.
Qed.

Lemma Promise_all_Throw {A} (settled : list (Res A * nat)) e :
  Promise_all settled = Throw e →
  ∃ t, (Throw e, t) ∈ settled
    ∧ ∀ e' t', (Throw e', t') ∈ settled → t ≤ t'.
Proof.
  unfold Promise_all.
  destruct (first_rejection settled) as [[e0 t]|] eqn:Hfirst; [|done].
  intros [= <-]. exists t. by apply first_rejection_Some.
Qed.

Lemma Promise_all_rejects {A} (settled : list (Res A * nat)) e t :
  (Throw e, t) ∈ settled → ∃ e', Promise_all settled = Throw e'.
Proof.
  intros Hin. destruct (Promise_all settled) as [vs|e'] eqn:Hall; [|by eexists].
  apply Promise_all_Ok in Hall.
  apply (list_elem_of_fmap_2 fst) in Hin. rewrite Hall in Hin.
  by apply list_elem_of_fmap in Hin as (? & [=] & _).
Qed.




Lemma wp_UpdateUsersGameStats game playtypes userID logger Q (w : World) :
  (∀ settled x,
     called_in_turn env
       (UpdateUsersGameStats_promises env game playtypes userID logger)
       (ext w) settled x →
     length settled = length playtypes →
     Q (match Promise_all settled with
        | Ok r => Ok (concat r)
        | Throw e => Throw e
        end)
       {| ext := x; date_reads := date_reads w;
          hrtime_reads := hrtime_reads w; logged := logged w;
          db_imports := db_imports w;
          db_import_timings := db_import_timings w;
          awaited := awaited w
            ++ zip_with (λ pt r, (StStats pt, thrown r)) playtypes
                 settled.*1 |}) →
  wp (UpdateUsersGameStats env game playtypes userID logger) Q w.
Proof.
  intros HQ. unfold wp, UpdateUsersGameStats.
  destruct (settle_all_run
              (UpdateUsersGameStats_promises env game playtypes userID logger) w)
    as (settled & x & -> & Hrs).
  pose proof (called_in_turn_length _ _ _ _ Hrs) as Hlen.
  unfold UpdateUsersGameStats_promises in Hlen.
  rewrite length_fmap in Hlen.
  specialize (HQ settled x Hrs Hlen).
  unfold UpdateUsersGameStats_promises. rewrite zip_with_fmap_l. simpl.
  by destruct (Promise_all settled).
Qed.

(** *** Stepping through [ScoreImportMain] *)

Ltac wp_prim :=
  lazymatch goal with
  | |- wp (mret _) _ _ => apply wp_ret
  | |- wp (ret _) _ _ => apply wp_ret
  | |- wp (Date_now _) _ _ => apply wp_Date_now
  | |- wp (hrtime_bigint _) _ _ => apply wp_hrtime_bigint
  | |- wp (GetMilisecondsSince _ _) _ _ => apply wp_GetMilisecondsSince
  | |- wp (logger_log _ _) _ _ => apply wp_logger_log
  | |- wp (db_import_timings_insert _) _ _ =>
      apply wp_db_import_timings_insert
  | |- wp (log_import_summary _ _) _ _ =>
      apply wp_log_import_summary; intros ? ?
  | |- wp (call _) _ _ => apply wp_call; intros [? ?] ? ?
  | |- wp (await _ _) _ _ => apply wp_await; intros [?|?] ? ?
  | |- wp (UpdateUsersGameStats _ _ _ _ _) _ _ =>
      apply wp_UpdateUsersGameStats; intros ? ? ? ?;
      destruct (Promise_all _) as [?|?] eqn:?
  | |- wp (db_imports_insert _ _) _ _ =>
      apply wp_db_imports_insert; [intros ? ?|intros ?]
  end.

Ltac wp_step :=
  lazymatch goal with
  | |- wp (_ ≫= _) _ _ => apply wp_bind; wp_prim
  | |- wp _ _ _ => wp_prim
  end;
  cbn [ext date_reads hrtime_reads logged db_imports db_import_timings
       awaited thrown] in *.

(** Projections out of the records a run builds. *)
Ltac doc_fields :=
  cbn [importType idStrings doc_scoreIDs doc_errors importID timeFinished
       timeStarted createdSessions userID classDeltas goalInfo milestoneInfo
       userIntent it_importID it_timestamp it_total it_rel it_abs
       rel_import rel_importParse rel_pb rel_session
       abs_parse abs_import abs_importParse abs_session abs_pb abs_ugs
       abs_goal abs_milestone
       ext date_reads hrtime_reads logged db_imports db_import_timings
       awaited] in *.

Lemma wp_run {A} (c : M A) Q w :
  wp c (λ r w', Q (r, w')) w → Q (c w).
Proof. unfold wp. by destruct (c w). Qed.

(** *** Traces *)



Lemma first_error_Some (tr : list (Stage Playtype * option Err)) st e :
  first_error tr = Some (st, e) →
  ∃ tr1 tr2, tr = tr1 ++ (st, Some e) :: tr2 ∧ clean tr1.
Proof.
  induction tr as [|[st' [e'|]] tr IH]; simpl; [done| |].
  - intros [= -> ->]. exists [], tr. split; [done|constructor].
  - intros (tr1 & tr2 & -> & Hclean)%IH.
    exists ((st', None) :: tr1), tr2. split; [done|by constructor].
Qed.


(** *** What a run of [ScoreImportMain] leaves behind *)








Lemma fan_out_stages {A} (playtypes : list Playtype)
    (settled : list (Res A * nat)) :
  length settled = length playtypes →
  (zip_with (λ pt r, (StStats pt, thrown r)) playtypes settled.*1).*1
  = StStats <$> playtypes.
Proof.
  revert settled.
  induction playtypes as [|pt playtypes IH]; intros [|r settled] Hlen;
    simplify_eq/=; [done|]. f_equal. by apply IH.
Qed.

Lemma elem_of_concat {A} (vs : list (list A)) d :
  d ∈ concat vs ↔ ∃ v, v ∈ vs ∧ d ∈ v.
Proof.
  induction vs as [|v vs IH]; simpl.
  - split; [by intros ?%elem_of_nil|]. by intros (? & ?%elem_of_nil & _).
  - rewrite elem_of_app, IH. split.
    + intros [Hd|(v' & Hv' & Hd)]; [exists v|exists v'];
        rewrite elem_of_cons; auto.
    + intros (v' & [->|Hv']%elem_of_cons & Hd); eauto.
Qed.

(** C5 (as amended): the play types handed to the fan-out are the keys
    of the groups map: each play type of an accepted score, once.  One
    update is started per play type, in that order.  When all return, the
    result is their results joined in that order, duplicates kept, so it
    holds a delta exactly when some update returned it.  When one throws,
    the stage throws, with the error of the rejection that settled first,
    and returns nothing. *)
Theorem UpdateUsersGameStats_fan_out
    (importInfo : list (ImportProcessingInfo Playtype ScoreData))
    game userID logger (w : World) :
  let playtypes := JsObj.keys (scorePlaytypeMap (ParseImportInfo importInfo)) in
  NoDup playtypes
  ∧ (∀ pt, pt ∈ playtypes
           ↔ ∃ score, Success score ∈ importInfo ∧ playtype score = pt)
  ∧ ∃ settled x,
      called_in_turn env
        (UpdateUsersGameStats_promises env game playtypes userID logger)
        (ext w) settled x
      ∧ length settled = length playtypes
      ∧ awaited (UpdateUsersGameStats env game playtypes userID logger w).2
        = awaited w
          ++ zip_with (λ pt r, (StStats pt, thrown r)) playtypes settled.*1
      ∧ (zip_with (λ pt r, (StStats pt, thrown r)) playtypes settled.*1).*1
        = StStats <$> playtypes
      ∧ match (UpdateUsersGameStats env game playtypes userID logger w).1 with
        | Ok deltas =>
            ∃ vs, settled.*1 = Ok <$> vs
              ∧ deltas = concat vs
              ∧ ∀ d, d ∈ deltas ↔ ∃ v, v ∈ vs ∧ d ∈ v
        | Throw e =>
            ∃ t, (Throw e, t) ∈ settled
              ∧ ∀ e' t', (Throw e', t') ∈ settled → t ≤ t'
        end.
Proof.
  intros playtypes. split_and!.
  - apply ParseImportInfo_keys_NoDup.
  - intros pt. unfold playtypes. rewrite ParseImportInfo_keys_elem.
    by setoid_rewrite elem_of_accepted.
  - apply (wp_UpdateUsersGameStats game playtypes userID logger
             (λ r w', ∃ settled x, _ ∧ _ ∧ awaited w' = _ ∧ _
                                   ∧ match r with
                                     | Ok deltas => _
                                     | Throw e => _
                                     end)).
    intros settled x Hrs Hlen. exists settled, x.
    split_and!; [done..|by apply fan_out_stages|].
    destruct (Promise_all settled) as [vs|e] eqn:Hall.
    + exists vs. split_and!; [by apply Promise_all_Ok|done|].
      intros d. apply elem_of_concat.
    + by apply Promise_all_Throw.
Qed.

(** *** The summary line *)


(** *** The timings *)

Lemma ParseImportInfo_length
    (importInfo : list (ImportProcessingInfo Playtype ScoreData)) :
  length importInfo
  = length (scoreIDs (ParseImportInfo importInfo))
    + length (errors (ParseImportInfo importInfo)).
Proof.
  rewrite ParseImportInfo_scoreIDs, ParseImportInfo_errors, length_fmap.
  symmetry. apply accepted_failures_length.
Qed.

Lemma ParseImportInfo_no_charts
    (importInfo : list (ImportProcessingInfo Playtype ScoreData)) :
  JsSet.size (chartIDs (ParseImportInfo importInfo)) = 0
  ↔ scoreIDs (ParseImportInfo importInfo) = [].
Proof.
  rewrite ParseImportInfo_scoreIDs. unfold JsSet.size.
  rewrite length_zero_iff_nil. split.
  - intros Hnil. destruct (accepted importInfo) as [|score scores] eqn:Hacc;
      [done|].
    assert (chartID score ∈ chartIDs (ParseImportInfo importInfo)) as Hin.
    { apply ParseImportInfo_chartIDs_elem. exists score. split; [|done].
      rewrite Hacc. apply elem_of_cons; auto. }
    rewrite Hnil in Hin. by apply elem_of_nil in Hin.
  - intros Hacc%fmap_nil_inv.
    destruct (chartIDs (ParseImportInfo importInfo)) as [|c cs] eqn:Hc; [done|].
    assert (c ∈ chartIDs (ParseImportInfo importInfo)) as Hin
      by (rewrite Hc; apply elem_of_cons; auto).
    apply ParseImportInfo_chartIDs_elem in Hin as (score & Hin & _).
    rewrite Hacc in Hin. by apply elem_of_nil in Hin.
Qed.

(** C7 (as amended): with clocks that never go backwards, a run that
    returns has [timeFinished >= timeStarted] and has written one timing
    record, whose total is their difference and whose absolute durations
    are all [>= 0]; each per-item duration is the stage's duration over its
    count of items and is [>= 0] (or +Infinity), unless the count is 0 and
    the stage took no time by the clock: then it is NaN. *)
Theorem ScoreImportMain_timings user userIntent importType InputParser
    (w : World) :
  nondecreasing (Date_clock env) →
  nondecreasing (hrtime_clock env) →
  match ScoreImportMain env user userIntent importType InputParser w with
  | (Ok doc, w') =>
      (timeStarted doc ≤ timeFinished doc)%Z
      ∧ ∃ t chartCount,
          db_import_timings w' = db_import_timings w ++ [t]
          ∧ it_total t = (timeFinished doc - timeStarted doc)%Z
          ∧ abs_nonneg (it_abs t)
          ∧ per_item (abs_import (it_abs t))
              (length (doc_scoreIDs doc) + length (doc_errors doc))
              (rel_import (it_rel t))
          ∧ per_item (abs_importParse (it_abs t))
              (length (doc_scoreIDs doc) + length (doc_errors doc))
              (rel_importParse (it_rel t))
          ∧ per_item (abs_session (it_abs t)) (length (createdSessions doc))
              (rel_session (it_rel t))
          ∧ per_item (abs_pb (it_abs t)) chartCount (rel_pb (it_rel t))
          ∧ (chartCount = 0 ↔ doc_scoreIDs doc = [])
  | (Throw _, _) => True
  end.
Proof.
  intros HDate Hhrtime.
  assert (∀ n, JsNum.nonneg
                 (JsNum.div
                    (JsNum.of_Z (hrtime_clock env (S n) - hrtime_clock env n))
                    (JsNum.of_Z 1000000)) = true) as Habs.
  { intros n. apply JsNum_elapsed_nonneg, Hhrtime. lia. }
  apply (wp_run _ (λ rw, match rw with
                         | (Ok doc, w') => _
                         | (Throw e, w') => _
                         end)).
  unfold ScoreImportMain. repeat wp_step. all: try done.
  split; [apply HDate; lia|].
  eexists _, (JsSet.size (chartIDs (ParseImportInfo _))).
  split; [reflexivity|]. doc_fields.
  rewrite <- ParseImportInfo_length.
  split_and!; try done; try (by apply JsNum_per_item).
  - unfold abs_nonneg. doc_fields. split_and!; apply Habs.
  - apply ParseImportInfo_no_charts.
Qed.

(** *** The empty batch *)

(** C10 (as amended): when the import stage of a run yields no outcome
    and the calls the run then makes return (sessions for the empty groups
    map, personal bests and goals for the empty chart-ID set, milestones
    for no play type, the insert), the run returns.  The document it adds
    to the imports collection has no score ID, no error, no ID string and
    no class delta; its sessions are those the session builder returned.
    The per-item durations of import, import parsing and personal bests
    are divisions by a zero count: each is NaN or an infinity; so is the
    one of the sessions when none was returned.  No division stops the
    run. *)
Theorem ScoreImportMain_empty_batch user intent type InputParser (w : World)
    importID logger x0 parsed x1 x2 sessionInfo x3 x4 gi x5 mi x6 :
  let doc :=
    {| importType := type;
       idStrings := [];
       doc_scoreIDs := [];
       doc_errors := [];
       importID := importID;
       timeFinished := Date_clock env (S (date_reads w));
       timeStarted := Date_clock env (date_reads w);
       createdSessions := sessionInfo;
       userID := id user;
       classDeltas := [];
       goalInfo := gi;
       milestoneInfo := mi;
       userIntent := intent |} in
  CreateImportLoggerAndID env user type (ext w) = ((importID, logger), x0) →
  InputParser logger x0 = (Ok parsed, x1) →
  ImportAllIterableData env (id user) (iterable parsed)
    (ConverterFunction parsed) (context parsed) logger x1
  = (Ok [], x2) →
  CreateSessions env (id user) type (game parsed) JsObj.create_null logger x2
  = (Ok sessionInfo, x3) →
  ProcessPBs env (id user) JsSet.empty logger x3 = (Ok (), x4) →
  UpdateUsersGoals env (game parsed) (id user) JsSet.empty logger x4
  = (Ok gi, x5) →
  UpdateUsersMilestones env gi (game parsed) [] (id user) logger x5
  = (Ok mi, x6) →
  db_imports_insert_rejects env doc x6 = None →
  ∃ w' t,
    ScoreImportMain env user intent type InputParser w = (Ok doc, w')
    ∧ db_imports w' = db_imports w ++ [doc]
    ∧ db_import_timings w' = db_import_timings w ++ [t]
    ∧ not_finite (rel_import (it_rel t))
    ∧ not_finite (rel_importParse (it_rel t))
    ∧ not_finite (rel_pb (it_rel t))
    ∧ rel_session (it_rel t)
      = JsNum.div (abs_session (it_abs t)) (JsNum.of_nat (length sessionInfo))
    ∧ (sessionInfo = [] → not_finite (rel_session (it_rel t))).
Proof.
  intros doc HLogger HParse HImport HSessions HPBs HGoals HMilestones HInsert.
  pose proof (conj HLogger
                (conj HParse
                   (conj HImport
                      (conj HSessions (conj HPBs (conj HGoals HMilestones))))))
    as Hrun.
  clear HLogger HParse HImport HSessions HPBs HGoals HMilestones.
  apply (wp_run _ (λ rw, ∃ w' t, rw = (Ok doc, w') ∧ _)).
  unfold ScoreImportMain.
  repeat
    (wp_step;
     repeat match goal with
       | Hc : _ = (_, _) |- _ =>
           let Heq := fresh in
           first
             [ pose proof (eq_trans (eq_sym Hc) (proj1 Hrun)) as Heq
             | pose proof (eq_trans (eq_sym Hc) (proj1 (proj2 Hrun))) as Heq
             | pose proof
                 (eq_trans (eq_sym Hc) (proj1 (proj2 (proj2 Hrun)))) as Heq
             | pose proof
                 (eq_trans (eq_sym Hc) (proj1 (proj2 (proj2 (proj2 Hrun)))))
                 as Heq
             | pose proof
                 (eq_trans (eq_sym Hc)
                    (proj1 (proj2 (proj2 (proj2 (proj2 Hrun)))))) as Heq
             | pose proof
                 (eq_trans (eq_sym Hc)
                    (proj1 (proj2 (proj2 (proj2 (proj2 (proj2 Hrun)))))))
                 as Heq
             | pose proof
                 (eq_trans (eq_sym Hc)
                    (proj2 (proj2 (proj2 (proj2 (proj2 (proj2 Hrun)))))))
                 as Heq ];
           clear Hc; simplify_eq
       | Hc : called_in_turn _ _ _ _ _ |- _ =>
           unfold UpdateUsersGameStats_promises in Hc; simpl in Hc;
           inversion Hc; clear Hc; subst
       | Hc : Promise_all [] = _ |- _ => cbv in Hc; simplify_eq
       | Hc : db_imports_insert_rejects _ _ _ = Some _ |- _ =>
           pose proof (eq_trans (eq_sym Hc) HInsert); simplify_eq
       end).
  eexists _, _. split; [reflexivity|]. doc_fields.
  split_and!; try done; try apply JsNum_div_zero.
  intros ->. apply JsNum_div_zero.
Qed.

Lemma fan_out_clean_trace {A} (playtypes : list Playtype)
    (settled : list (Res (list A) * nat)) r :
  length settled = length playtypes →
  Promise_all settled = Ok r →
  zip_with (λ pt r, (StStats pt, thrown r)) playtypes settled.*1
  = (λ pt, (StStats pt, None)) <$> playtypes.
Proof.
  intros Hlen Hall%Promise_all_Ok. rewrite Hall.
  rewrite <- (length_fmap fst), Hall, length_fmap in Hlen.
  clear Hall. revert r Hlen.
  induction playtypes as [|pt playtypes IH]; intros [|v r] Hlen;
    simplify_eq/=; [done|]. f_equal. by apply IH.
Qed.

Lemma fan_out_clean_stages (playtypes : list Playtype) :
  ((λ pt, (StStats pt, @None Err)) <$> playtypes).*1 = StStats <$> playtypes.
Proof. rewrite <- list_fmap_compose. done. Qed.

Lemma idStrings_playtypes (game : Game) (playtypes : list Playtype) :
  ((λ e, (game, e)) <$> playtypes).*2 = playtypes.
Proof. rewrite <- list_fmap_compose. apply list_fmap_id. Qed.

(** X5: the awaited calls are made in the order of the source: parser,
    import, sessions, personal bests, one stats update per play type of
    the document, goals, milestones, insert.  A run that returns made them
    all, none failing; a run that throws made a prefix of them. *)
Theorem ScoreImportMain_stage_order user userIntent importType InputParser
    (w : World) :
  match ScoreImportMain env user userIntent importType InputParser w with
  | (Ok doc, w') =>
      awaited w'
      = awaited w
        ++ ((λ st, (st, None))
              <$> [StParse; StImport; StSessions; StPBs]
                  ++ (StStats <$> (idStrings doc).*2)
                  ++ [StGoals; StMilestones; StInsert])
  | (Throw e, w') =>
      ∃ tr playtypes,
        awaited w' = awaited w ++ tr
        ∧ tr.*1 `prefix_of`
            [StParse; StImport; StSessions; StPBs]
            ++ (StStats <$> playtypes)
            ++ [StGoals; StMilestones; StInsert]
  end.
Proof.
  apply (wp_run _ (λ rw, match rw with
                         | (Ok doc, w') => _
                         | (Throw e, w') => _
                         end)).
  unfold ScoreImportMain. repeat wp_step.
  all: try (erewrite fan_out_clean_trace by eassumption).
  all: rewrite <- ?app_assoc.
  all: try (first
              [ match goal with
                | |- context [JsObj.keys ?m] => eexists _, (JsObj.keys m)
                end
              | eexists _, [] ];
            split; [reflexivity|];
            rewrite ?fmap_app, ?fan_out_clean_stages, ?fan_out_stages by done;
            repeat first
              [ apply prefix_nil
              | apply prefix_cons
              | apply (prefix_app [_])
              | apply (prefix_app (_ <$> _))
              | apply prefix_app_r; reflexivity ]).
  doc_fields. rewrite idStrings_playtypes.
  rewrite !fmap_app, <- !list_fmap_compose. reflexivity.
Qed.

(** X6: the document a run returns is built from the caller's
    arguments and from what the calls of the run returned, each call fed
    with the results of the earlier ones: the import ID made by
    [CreateImportLoggerAndID], the parser's game paired with each key of
    the groups map of the imported outcomes (each play type once) as ID
    strings, the score IDs and errors of those outcomes, the sessions
    built from the groups, the joined stats updates, the goals evaluated
    on the chart IDs, the milestones evaluated on those goals; the first
    two readings of [Date.now()] are its start and finish. *)
Theorem ScoreImportMain_document user intent type InputParser (w : World) :
  match ScoreImportMain env user intent type InputParser w with
  | (Ok doc, w') =>
      ∃ logger x0 parsed x1 importInfo x2 x3 x4 settled x5 x6,
        let parsedInfo := ParseImportInfo importInfo in
        let playtypes := JsObj.keys (scorePlaytypeMap parsedInfo) in
        CreateImportLoggerAndID env user type (ext w)
        = ((importID doc, logger), x0)
        ∧ InputParser logger x0 = (Ok parsed, x1)
        ∧ ImportAllIterableData env (id user) (iterable parsed)
            (ConverterFunction parsed) (context parsed) logger x1
          = (Ok importInfo, x2)
        ∧ CreateSessions env (id user) type (game parsed)
            (scorePlaytypeMap parsedInfo) logger x2
          = (Ok (createdSessions doc), x3)
        ∧ ProcessPBs env (id user) (chartIDs parsedInfo) logger x3
          = (Ok (), x4)
        ∧ called_in_turn env
            (UpdateUsersGameStats_promises env (game parsed) playtypes
               (id user) logger) x4 settled x5
        ∧ UpdateUsersGoals env (game parsed) (id user) (chartIDs parsedInfo)
            logger x5
          = (Ok (goalInfo doc), x6)
        ∧ UpdateUsersMilestones env (goalInfo doc) (game parsed) playtypes
            (id user) logger x6
          = (Ok (milestoneInfo doc), ext w')
        ∧ NoDup (idStrings doc)
        ∧ date_reads w' = 3 + date_reads w
        ∧ doc
          = {| importType := type;
               idStrings := (λ e, (game parsed, e)) <$> playtypes;
               doc_scoreIDs := scoreIDs parsedInfo;
               doc_errors := errors parsedInfo;
               importID := importID doc;
               timeFinished := Date_clock env (S (date_reads w));
               timeStarted := Date_clock env (date_reads w);
               createdSessions := createdSessions doc;
               userID := id user;
               classDeltas := concat (fulfilled settled);
               goalInfo := goalInfo doc;
               milestoneInfo := milestoneInfo doc;
               userIntent := intent |}
  | (Throw e, w') => True
  end.
Proof.
  apply (wp_run _ (λ rw, match rw with
                         | (Ok doc, w') => _
                         | (Throw e, w') => _
                         end)).
  unfold ScoreImportMain. repeat wp_step. all: try done.
  doc_fields.
  match goal with
  | Hp : Promise_all ?settled = Ok ?vs |- _ =>
      apply Promise_all_Ok in Hp; apply fulfilled_Ok in Hp; subst vs
  end.
  repeat match goal with u : () |- _ => destruct u end.
  eexists _, _, _, _, _, _, _, _, _, _, _.
  split_and!; try eassumption; try reflexivity.
  apply (NoDup_fmap_2 _), ParseImportInfo_keys_NoDup.
Qed.


(** X8: the timing record is written by the runs that return, and by no
    other: a run that returns adds one record, with the document's import
    ID, the document's [timeFinished - timeStarted] as total and the third
    reading of [Date.now()] as timestamp; a run that throws adds none. *)
Theorem ScoreImportMain_timing_record user intent type InputParser
    (w : World) :
  match ScoreImportMain env user intent type InputParser w with
  | (Ok doc, w') =>
      ∃ t, db_import_timings w' = db_import_timings w ++ [t]
        ∧ it_importID t = importID doc
        ∧ it_total t = (timeFinished doc - timeStarted doc)%Z
        ∧ it_timestamp t = Date_clock env (S (S (date_reads w)))
  | (Throw e, w') => db_import_timings w' = db_import_timings w
  end.
Proof.
  apply (wp_run _ (λ rw, match rw with
                         | (Ok doc, w') => _
                         | (Throw e, w') => _
                         end)).
  unfold ScoreImportMain. repeat wp_step. all: try done.
  by eexists.
Qed.

Lemma JsNum_elapsed_positive (start now : Z) (count : nat) :
  (start < now)%Z →
  JsNum.nonneg
    (JsNum.div
       (JsNum.div (JsNum.of_Z (now - start)) (JsNum.of_Z 1000000))
       (JsNum.of_nat count))
  = true.
Proof.
  intros Hlt.
  destruct (JsNum_per_item
              (JsNum.div (JsNum.of_Z (now - start)) (JsNum.of_Z 1000000))
              count) as [_ [Hnonneg|(_ & Hzero & _)]]; [|done|].
  { apply JsNum_elapsed_nonneg. lia. }
  rewrite JsNum_div_million in Hzero.
  apply (f_equal (λ x, match x with JsNum.Fin q => q | _ => 0%Qc end))
    in Hzero.
  cbv beta iota delta [JsNum.of_Z] in Hzero.
  assert (Qc_of_Z (now - start) = Qc_of_Z 0) as Hd.
  { rewrite <- (Qcmult_div_r (Qc_of_Z (now - start)) (Qc_of_Z 1000000)).
    - rewrite Hzero, Z2Qc_inj_0, Qcmult_comm. apply Qcmult_0_l.
    - rewrite <- Z2Qc_inj_0. by intros ?%Z2Qc_inj. }
  apply Z2Qc_inj in Hd. lia.
Qed.

(** X10: against a nanosecond clock that advances between any two reads,
    every per-item duration of the timing record is [>= 0], whatever the
    counts: a division by a zero count then gives +Infinity. *)
Theorem ScoreImportMain_timings_strict user intent type InputParser
    (w : World) :
  strictly_increasing (hrtime_clock env) →
  match ScoreImportMain env user intent type InputParser w with
  | (Ok doc, w') =>
      ∃ t, db_import_timings w' = db_import_timings w ++ [t]
        ∧ JsNum.nonneg (rel_import (it_rel t)) = true
        ∧ JsNum.nonneg (rel_importParse (it_rel t)) = true
        ∧ JsNum.nonneg (rel_session (it_rel t)) = true
        ∧ JsNum.nonneg (rel_pb (it_rel t)) = true
  | (Throw e, w') => True
  end.
Proof.
  intros Hhrtime.
  apply (wp_run _ (λ rw, match rw with
                         | (Ok doc, w') => _
                         | (Throw e, w') => _
                         end)).
  unfold ScoreImportMain. repeat wp_step. all: try done.
  eexists. split; [reflexivity|]. doc_fields.
  split_and!; apply JsNum_elapsed_positive, Hhrtime.
Qed.
End OrchestratorFacts.

(** ** The theorems at the small instance *)

(** The amended C7 applies to the batch of four outcomes, imported
    against clocks that tick at every read. *)
Lemma ScoreImportMain_timings_witness :
  nondecreasing Example.ticking
  ∧ nondecreasing Example.ticking_ns
  ∧ match
      ScoreImportMain
        (Example.env Example.ticking Example.ticking_ns Example.batch [])
        Example.user true "file/eamusement-iidx-csv" Example.InputParser
        Example.world
    with
    | (Ok doc, w') =>
        (timeStarted doc ≤ timeFinished doc)%Z
        ∧ ∃ t chartCount,
            db_import_timings w' = db_import_timings Example.world ++ [t]
            ∧ it_total t = (timeFinished doc - timeStarted doc)%Z
            ∧ abs_nonneg (it_abs t)
            ∧ per_item (abs_import (it_abs t))
                (length (doc_scoreIDs doc) + length (doc_errors doc))
                (rel_import (it_rel t))
            ∧ per_item (abs_importParse (it_abs t))
                (length (doc_scoreIDs doc) + length (doc_errors doc))
                (rel_importParse (it_rel t))
            ∧ per_item (abs_session (it_abs t)) (length (createdSessions doc))
                (rel_session (it_rel t))
            ∧ per_item (abs_pb (it_abs t)) chartCount (rel_pb (it_rel t))
            ∧ (chartCount = 0 ↔ doc_scoreIDs doc = [])
    | (Throw _, _) => True
    end.
Proof.
  assert (nondecreasing Example.ticking) as HDate
    by (intros n m Hnm; unfold Example.ticking; lia).
  assert (nondecreasing Example.ticking_ns) as Hhrtime
    by (intros n m Hnm; unfold Example.ticking_ns; lia).
  split_and!; [done..|].
  apply (ScoreImportMain_timings
           (Example.env Example.ticking Example.ticking_ns Example.batch []));
    assumption.
Defined.

(** C7 as stated fails on an empty batch run against a clock that
    stands still (it never goes backwards): the per-item import duration
    written to the timing record is 0/0, NaN, which is not [>= 0]. *)
Lemma ScoreImportMain_timings_counterexample :
  nondecreasing Example.ticking
  ∧ nondecreasing Example.stalled
  ∧ ∃ doc w' t,
      ScoreImportMain (Example.env Example.ticking Example.stalled [] [])
        Example.user true "file/eamusement-iidx-csv" Example.InputParser
        Example.world
      = (Ok doc, w')
      ∧ db_import_timings w' = [t]
      ∧ rel_import (it_rel t) = JsNum.NaN
      ∧ JsNum.nonneg (rel_import (it_rel t)) = false.
Proof.
  split_and!.
  - intros n m Hnm. unfold Example.ticking. lia.
  - intros n m Hnm. done.
  - remember (ScoreImportMain _ _ _ _ _ _) as run eqn:Hrun.
    vm_compute in Hrun. subst run.
    eexists _, _, _. split; [reflexivity|]. by split_and!.
Qed.

(** The amended C10 applies to the instance whose import stage yields no
    outcome; its session builder returns no session for the empty groups
    map. *)
Lemma ScoreImportMain_empty_batch_witness :
  ∃ doc w' t,
    ScoreImportMain (Example.env Example.ticking Example.ticking_ns [] [])
      Example.user true "file/eamusement-iidx-csv" Example.InputParser
      Example.world
    = (Ok doc, w')
    ∧ db_imports w' = db_imports Example.world ++ [doc]
    ∧ doc_scoreIDs doc = []
    ∧ doc_errors doc = []
    ∧ idStrings doc = []
    ∧ createdSessions doc = []
    ∧ classDeltas doc = []
    ∧ db_import_timings w' = db_import_timings Example.world ++ [t]
    ∧ not_finite (rel_import (it_rel t))
    ∧ not_finite (rel_importParse (it_rel t))
    ∧ not_finite (rel_session (it_rel t))
    ∧ not_finite (rel_pb (it_rel t)).
Proof.
  destruct (ScoreImportMain_empty_batch
              (Example.env Example.ticking Example.ticking_ns [] [])
              Example.user true "file/eamusement-iidx-csv" Example.InputParser
              Example.world "import-1" () 0
              {| iterable := (); ConverterFunction := (); context := ();
                 game := "iidx" |}
              1 2 [] 3 4 () 5 () 6)
    as (w' & t & Hrun & Hdb & Ht & Himport & Hparse & Hpb & _ & Hsession);
    [reflexivity..|].
  eexists _, w', t. split; [exact Hrun|].
  split_and!;
    [ exact Hdb | reflexivity | reflexivity | reflexivity | reflexivity
    | reflexivity | exact Ht | exact Himport | exact Hparse
    | apply Hsession; reflexivity | exact Hpb ].
Defined.

(** C10 as stated fails in one part: the sessions of the document are
    those the session builder returns, and nothing in [ScoreImportMain]
    makes them empty.  With a session builder that reports a session
    whatever the groups, the empty batch is imported into a document with
    no score ID, no error and no ID string, and one session. *)
Lemma ScoreImportMain_empty_batch_counterexample :
  ∃ doc w',
    ScoreImportMain
      (Example.with_CreateSessions (Ok ["session"])
         (Example.env Example.ticking Example.ticking_ns [] []))
      Example.user true "file/eamusement-iidx-csv" Example.InputParser
      Example.world
    = (Ok doc, w')
    ∧ db_imports w' = [doc]
    ∧ doc_scoreIDs doc = []
    ∧ doc_errors doc = []
    ∧ idStrings doc = []
    ∧ createdSessions doc = ["session"].
Proof.
  remember (ScoreImportMain _ _ _ _ _ _) as run eqn:Hrun.
  vm_compute in Hrun. subst run.
  eexists _, _. split; [reflexivity|]. by split_and!.
Qed.


(** C5 as stated fails in one part: the joined result is not
    deduplicated.  The updates of the two play types of the batch return
    the same delta, and the result holds it twice. *)
Lemma UpdateUsersGameStats_keeps_duplicates :
  JsObj.keys (scorePlaytypeMap (ParseImportInfo Example.batch))
  = [Example.SP; Example.DP]
  ∧ (UpdateUsersGameStats
       (Example.env Example.ticking Example.ticking_ns Example.batch [])
       "iidx" (JsObj.keys (scorePlaytypeMap (ParseImportInfo Example.batch)))
       1 () Example.world).1
    = Ok ["delta"; "delta"]
  ∧ ¬ NoDup ["delta"; "delta"].
Proof.
  split_and!; [by vm_compute..|].
  intros [Hin _]%NoDup_cons. apply Hin, list_elem_of_here.
Qed.

(** X1 applies to a batch of two failed outcomes. *)
Lemma ParseImportInfo_all_failed_witness :
  scoreIDs
    (ParseImportInfo
       [Failure "KTDataNotFound" "no such chart";
        Failure "InvalidScore" "EX score above the maximum"
        : ImportProcessingInfo Example.Playtype unit])
  = []
  ∧ chartIDs
      (ParseImportInfo
         [Failure "KTDataNotFound" "no such chart";
          Failure "InvalidScore" "EX score above the maximum"
          : ImportProcessingInfo Example.Playtype unit])
    = JsSet.empty
  ∧ scorePlaytypeMap
      (ParseImportInfo
         [Failure "KTDataNotFound" "no such chart";
          Failure "InvalidScore" "EX score above the maximum"
          : ImportProcessingInfo Example.Playtype unit])
    = JsObj.create_null
  ∧ length
      (errors
         (ParseImportInfo
            [Failure "KTDataNotFound" "no such chart";
             Failure "InvalidScore" "EX score above the maximum"
             : ImportProcessingInfo Example.Playtype unit]))
    = 2.
Proof.
  apply (ParseImportInfo_all_failed
           [Failure "KTDataNotFound" "no such chart";
            Failure "InvalidScore" "EX score above the maximum"]).
  intros score Hin.
  repeat (apply elem_of_cons in Hin as [Hin|Hin]; [discriminate Hin|]).
  by apply elem_of_nil in Hin.
Defined.

(** X10 applies to the batch of four outcomes, imported against a clock
    that advances by a millisecond at every read. *)
Lemma ScoreImportMain_timings_strict_witness :
  strictly_increasing Example.ticking_ns
  ∧ match
      ScoreImportMain
        (Example.env Example.ticking Example.ticking_ns Example.batch [])
        Example.user true "file/eamusement-iidx-csv" Example.InputParser
        Example.world
    with
    | (Ok doc, w') =>
        ∃ t, db_import_timings w' = db_import_timings Example.world ++ [t]
          ∧ JsNum.nonneg (rel_import (it_rel t)) = true
          ∧ JsNum.nonneg (rel_importParse (it_rel t)) = true
          ∧ JsNum.nonneg (rel_session (it_rel t)) = true
          ∧ JsNum.nonneg (rel_pb (it_rel t)) = true
    | (Throw e, w') => True
    end.
Proof.
  assert (strictly_increasing Example.ticking_ns) as Hhrtime
    by (intros n; unfold Example.ticking_ns; lia).
  split; [done|].
  by apply (ScoreImportMain_timings_strict
              (Example.env Example.ticking Example.ticking_ns Example.batch [])).
Defined.
